(** * Robot bartender: inventory, serve pipeline, recovery and voice hand-off

    A shallow embedding of [your_nova_app/programs/mcp_bartender.py] (the
    tool server: [RobotBartender], [handle_call_tool]) and of
    [your_nova_app/start_here_voice.py] (the voice listener, the command
    queue and the control loop), with the properties the specification states
    about them.

    The Python code talks to collaborators it does not define: the Nova
    motion API ([plan], [execute], [controller.write]), the Picovoice engines
    and the standard library's [queue.Queue].  Their answers are inputs of the
    model: every call to the robot API consumes the next entry of an oracle
    that says whether the call returns or raises, and every audio frame comes
    with what the two engines answer on it.  What the Python code itself
    decides (branching, popping the inventory, the order of the calls, what is
    caught and what is reported) is written out.

    Conventions.
    - An exception is an [Exception] with its message [str(e)]; what only
      [BaseException] covers (cancellation, keyboard interrupt) is left out.
    - A coroutine runs from its call to its return: one tool call, and one
      serve, at a time.
    - Text is ASCII: [str.lower] and [str.capitalize] change [A-Z] and [a-z]
      only.
    - Poses are carried, never computed with: the six numbers are the decimal
      literals of the source, and [p @ offset] stays symbolic.
    - A [write] that raises is taken not to have changed its line. *)

From Stdlib Require Import String Ascii List QArith ZArith Lia Bool Arith.
From Stdlib Require Import DecimalString.
Import ListNotations.
Close Scope Q_scope.
Open Scope string_scope.

Set Implicit Arguments.

(* ================================================================== *)
(** * Strings: the parts of [str] the program uses (ASCII text) *)

(** [str.lower] on one character: [A-Z] go to [a-z], every other byte stays. *)
Definition lower_ascii (c : ascii) : ascii :=
  let n := nat_of_ascii c in
  if (65 <=? n)%nat && (n <=? 90)%nat then ascii_of_nat (n + 32) else c.

Definition upper_ascii (c : ascii) : ascii :=
  let n := nat_of_ascii c in
  if (97 <=? n)%nat && (n <=? 122)%nat then ascii_of_nat (n - 32) else c.

(** [s.lower()] *)
Fixpoint lower (s : string) : string :=
  match s with
  | EmptyString => EmptyString
  | String c r => String (lower_ascii c) (lower r)
  end.

(** [s.capitalize()]: first character upper-cased, the rest lower-cased. *)
Definition capitalize (s : string) : string :=
  match s with
  | EmptyString => EmptyString
  | String c r => String (upper_ascii c) (lower r)
  end.

(** [str(n)] for a non-negative [int]. *)
Definition str_of_nat (n : nat) : string := NilZero.string_of_uint (Nat.to_uint n).

(** [sep.join(parts)] *)
Definition join (sep : string) (parts : list string) : string := String.concat sep parts.

Definition newline : string := String (ascii_of_nat 10) EmptyString.

(** [repr] of a string and of a [dict] of strings, as an f-string prints them;
    exact for text without quotes, backslashes and control characters. *)
Definition repr_str (s : string) : string := "'" ++ s ++ "'".

Definition repr_dict (d : list (string * string)) : string :=
  "{" ++ join ", " (map (fun kv => repr_str (fst kv) ++ ": " ++ repr_str (snd kv)) d) ++ "}".

(* ================================================================== *)
(** * Dictionaries with string keys, in insertion order

    A Python [dict] keeps its keys in insertion order and the program prints
    them in that order, so a dictionary is an association list; a key occurs at
    most once in a list built with [dict_set] from the empty one. *)

Section Dict.
Variable V : Type.

Definition dict := list (string * V).

(** [d.get(k)] / [d[k]] *)
Fixpoint dict_get (k : string) (d : dict) : option V :=
  match d with
  | [] => None
  | (k', v) :: r => if String.eqb k k' then Some v else dict_get k r
  end.

(** [d[k] = v]: an existing key keeps its place, a new key goes last. *)
Fixpoint dict_set (k : string) (v : V) (d : dict) : dict :=
  match d with
  | [] => [(k, v)]
  | (k', v') :: r =>
      if String.eqb k k' then (k', v) :: r else (k', v') :: dict_set k v r
  end.

(** [d.keys()] *)
Definition dict_keys (d : dict) : list string := map fst d.
End Dict.

Arguments dict_get {V} k d.
Arguments dict_set {V} k v d.
Arguments dict_keys {V} d.

(* ================================================================== *)
(** * Poses and motion actions ([nova.types], [nova.actions]) *)

Definition Vec6 : Type := (Q * Q * Q * Q * Q * Q)%type.

(** A [Pose] is six numbers.  [p @ offset] is computed by the Nova library;
    the program only passes the result on, so it is kept as written. *)
Inductive Pose : Type :=
| mkPose (v : Vec6)
| Pose_matmul (p : Pose) (offset : Vec6).

Inductive Action : Type :=
| cartesian_ptp (target : Pose).

(** What [motion_group.plan] hands back and [execute] takes. *)
Inductive Trajectory : Type :=
| joint_trajectory (actions : list Action).

(* ================================================================== *)
(** * The robot seen from the program *)

(** The state of the two gripper lines [tool_out[0]] and [tool_out[1]]. *)
Definition ToolOut : Type := (bool * bool)%type.

Inductive Level : Type := INFO | WARNING | ERROR.

(** Calls into the Nova API. *)
Inductive Call : Type :=
| CNova                                          (* Nova() *)
| CNovaEnter                                     (* nova_instance.__aenter__() *)
| CController (name : string)                    (* cell.controller(name) *)
| CMotionGroup                                   (* controller[0].__aenter__() *)
| CTcpNames                                      (* motion_group.tcp_names() *)
| CPlan (actions : list Action) (tcp : option string)
| CExecute (traj : Trajectory) (tcp : option string) (actions : list Action)
| CWrite (key : string) (value : bool).

Inductive Event : Type :=
| ECall (c : Call) (raised : option string)      (* a call and whether it raised *)
| ESleep (seconds : Q)                           (* asyncio.sleep *)
| ELog (lvl : Level) (msg : string)              (* logger.info / warning / error *)
| EPut (token : string)                          (* command_queue.put(token) *)
| EGet (token : string).                         (* command_queue.get() returned token *)

Record World : Type := mkWorld {
  oracle : list (option string);
      (* what the next robot calls do: [None] returns, [Some e] raises
         [Exception(e)]; past the end of the list every call returns *)
  tcp_names_reply : list string;                 (* what tcp_names() answers *)
  tool_out : ToolOut                             (* the two gripper lines *)
}.

(** The effect of one robot call on the gripper lines: a write that returns
    sets its line, a write that raises and every other call leave them. *)
Definition apply_write (key : string) (value : bool) (io : ToolOut) : ToolOut :=
  if String.eqb key "tool_out[0]" then (value, snd io)
  else if String.eqb key "tool_out[1]" then (fst io, value)
  else io.

Definition apply_event (io : ToolOut) (ev : Event) : ToolOut :=
  match ev with
  | ECall (CWrite key value) None => apply_write key value io
  | _ => io
  end.

(** The gripper lines after each event of a run that starts with lines [io]. *)
Fixpoint tool_out_history (io : ToolOut) (evs : list Event) : list ToolOut :=
  match evs with
  | [] => []
  | ev :: r => let io' := apply_event io ev in io' :: tool_out_history io' r
  end.

Definition both_asserted (io : ToolOut) : bool := fst io && snd io.

(** The events that come before the [k]-th robot call (counting from 0). *)
Fixpoint before_call (k : nat) (evs : list Event) : list Event :=
  match evs with
  | [] => []
  | ECall c r :: rest =>
      match k with
      | O => []
      | S k' => ECall c r :: before_call k' rest
      end
  | ev :: rest => ev :: before_call k rest
  end.

(** How many Moves are attempted: every Move starts with a [plan]. *)
Fixpoint moves_attempted (evs : list Event) : nat :=
  match evs with
  | [] => 0
  | ECall (CPlan _ _) _ :: rest => S (moves_attempted rest)
  | _ :: rest => moves_attempted rest
  end.

(** The robot calls among the events, in order. *)
Fixpoint calls_of (evs : list Event) : list (Call * option string) :=
  match evs with
  | [] => []
  | ECall c r :: rest => (c, r) :: calls_of rest
  | _ :: rest => calls_of rest
  end.

(** The tokens put into, and taken from, the command queue, in order. *)
Fixpoint puts_of (evs : list Event) : list string :=
  match evs with
  | [] => []
  | EPut t :: rest => t :: puts_of rest
  | _ :: rest => puts_of rest
  end.

Fixpoint gets_of (evs : list Event) : list string :=
  match evs with
  | [] => []
  | EGet t :: rest => t :: gets_of rest
  | _ :: rest => gets_of rest
  end.

(* ================================================================== *)
(** * The monad of the program: state, exceptions, emitted events

    [M S A] is a computation over a state [S] that returns an [A] or raises an
    exception (its message), and emits the events it performed, in order. *)

Inductive Result (A : Type) : Type :=
| Ok (a : A)
| Raise (e : string).
Arguments Ok {A} a.
Arguments Raise {A} e.

Definition M (S A : Type) : Type := S -> Result A * S * list Event.

Section Monad.
Context {S : Type}.

Definition ret {A} (a : A) : M S A := fun s => (Ok a, s, []).

Definition bind {A B} (m : M S A) (f : A -> M S B) : M S B :=
  fun s =>
    match m s with
    | (Ok a, s1, l1) =>
        match f a s1 with
        | (r, s2, l2) => (r, s2, (l1 ++ l2)%list)
        end
    | (Raise e, s1, l1) => (Raise e, s1, l1)
    end.

(** [raise Exception(e)] *)
Definition raise {A} (e : string) : M S A := fun s => (Raise e, s, []).

(** [try: body  except Exception as e: handler(e)] *)
Definition try_except {A} (body : M S A) (handler : string -> M S A) : M S A :=
  fun s =>
    match body s with
    | (Ok a, s1, l1) => (Ok a, s1, l1)
    | (Raise e, s1, l1) =>
        match handler e s1 with
        | (r, s2, l2) => (r, s2, (l1 ++ l2)%list)
        end
    end.

Definition get : M S S := fun s => (Ok s, s, []).
Definition emit (ev : Event) : M S unit := fun s => (Ok tt, s, [ev]).
End Monad.

(** The state a computation ends in, and the events it emitted. *)
Definition final_state {S A} (x : Result A * S * list Event) : S := snd (fst x).
Definition outcome {S A} (x : Result A * S * list Event) : Result A := fst (fst x).
Definition events {S A} (x : Result A * S * list Event) : list Event := snd x.

(** [keeps proj m]: running [m] never changes the part [proj] of the state,
    whether it returns or raises. *)
Definition keeps {S T A} (proj : S -> T) (m : M S A) : Prop :=
  forall s, proj (final_state (m s)) = proj s.

(** [preserves proj P m]: if [P] holds of the part [proj] of the state before
    [m], it holds after, whether [m] returns or raises. *)
Definition preserves {S T A} (proj : S -> T) (P : T -> Prop) (m : M S A) : Prop :=
  forall s, P (proj s) -> P (proj (final_state (m s))).

(** [yields P m]: whenever [m] returns, the value it returns satisfies [P]. *)
Definition yields {S A} (P : A -> Prop) (m : M S A) : Prop :=
  forall s a, outcome (m s) = Ok a -> P a.

(** [returns m]: [m] never lets an exception out. *)
Definition returns {S A} (m : M S A) : Prop :=
  forall s, exists a, outcome (m s) = Ok a.

Declare Scope prog_scope.
Delimit Scope prog_scope with prog.
Notation "x <- m ;; k" := (bind m (fun x => k))
  (at level 100, m at next level, right associativity) : prog_scope.
Notation "m ;; k" := (bind m (fun _ => k))
  (at level 100, right associativity) : prog_scope.
Open Scope prog_scope.

(** States that contain the robot. *)
Class HasWorld (S : Type) : Type := {
  world : S -> World;
  with_world : World -> S -> S
}.

Section Robot.
Context {S : Type} `{HasWorld S}.

Definition log (lvl : Level) (msg : string) : M S unit := emit (ELog lvl msg).

(** [await asyncio.sleep(seconds)] *)
Definition sleep (seconds : Q) : M S unit := emit (ESleep seconds).

(** One call into the robot API: the oracle says whether it raises; the
    call and its outcome are recorded, and the gripper lines follow. *)
Definition robot_call (c : Call) : M S unit :=
  fun s =>
    let w := world s in
    let raised := hd None (oracle w) in
    let ev := ECall c raised in
    let w' := mkWorld (tl (oracle w)) (tcp_names_reply w) (apply_event (tool_out w) ev) in
    match raised with
    | None => (Ok tt, with_world w' s, [ev])
    | Some e => (Raise e, with_world w' s, [ev])
    end.
End Robot.

(* ================================================================== *)
(** * [programs/mcp_bartender.py] *)

Module mcp_bartender.

Definition CONTROLLER_NAME : string := "ur5e".

(** Robot poses *)
Definition START_POSE : Pose := mkPose (102.9, -505.6, 483.4, -1.496, -2.5662, 0.0903)%Q.
Definition COKE_0 : Pose := mkPose (-170.6, -609.6, 340, 2.7917, -1.4176, -0.0117)%Q.
Definition COKE_1 : Pose := mkPose (-162.3, -501.4, 334.1, 2.7916, -1.4181, -0.0115)%Q.
Definition REDBULL_0 : Pose := mkPose (-64.4, -484.6, 332.3, 2.7873, -1.4154, 0.0118)%Q.
Definition REDBULL_1 : Pose := mkPose (-74.2, -606.2, 334.7, 2.7871, -1.4156, -0.0122)%Q.
Definition FANTA_0 : Pose := mkPose (35.8, -313.2, 333.9, 2.7879, -1.4062, 0.0075)%Q.
Definition CUSTOMER : Pose := mkPose (103.9, -699.5, 631.4, 1.2941, 2.558, -0.8835)%Q.

Definition Inventory : Type := dict (list Pose).

(** Initial inventory *)
Definition INITIAL_INVENTORY : Inventory :=
  [ ("coke", [COKE_0; COKE_1]);
    ("redbull", [REDBULL_0; REDBULL_1]);
    ("fanta", [FANTA_0]) ].

(** The objects the Nova API hands out; the program only stores them. *)
Inductive NovaInstance : Type := Nova_object.
Inductive Controller : Type := Controller_object (name : string).
Inductive MotionGroup : Type := MotionGroup_object.

(** [class RobotBartender] *)
Record RobotBartender : Type := mkRobotBartender {
  inventory : Inventory;
  nova_instance : option NovaInstance;
  controller : option Controller;
  motion_group : option MotionGroup;
  tcp : option string;
  initialized : bool
}.

(** [RobotBartender.__init__] *)
Definition __init__ : RobotBartender :=
  mkRobotBartender [] None None None None false.

(** The bartender together with the robot it drives. *)
Record State : Type := mkState {
  self : RobotBartender;
  robot : World
}.

#[export] Instance State_HasWorld : HasWorld State :=
  {| world := robot; with_world := fun w s => mkState (self s) w |}.

Definition update_self (f : RobotBartender -> RobotBartender) : M State unit :=
  fun s => (Ok tt, mkState (f (self s)) (robot s), []).

(** Attribute assignments [self.x = v]. *)
Definition with_inventory (v : Inventory) (b : RobotBartender) : RobotBartender :=
  mkRobotBartender v (nova_instance b) (controller b) (motion_group b) (tcp b)
                   (initialized b).

Definition set_inventory (v : Inventory) : M State unit :=
  update_self (with_inventory v).
Definition set_nova_instance (v : option NovaInstance) : M State unit :=
  update_self (fun b => mkRobotBartender (inventory b) v (controller b)
                                         (motion_group b) (tcp b) (initialized b)).
Definition set_controller (v : option Controller) : M State unit :=
  update_self (fun b => mkRobotBartender (inventory b) (nova_instance b) v
                                         (motion_group b) (tcp b) (initialized b)).
Definition set_motion_group (v : option MotionGroup) : M State unit :=
  update_self (fun b => mkRobotBartender (inventory b) (nova_instance b) (controller b)
                                         v (tcp b) (initialized b)).
Definition set_tcp (v : option string) : M State unit :=
  update_self (fun b => mkRobotBartender (inventory b) (nova_instance b) (controller b)
                                         (motion_group b) v (initialized b)).
Definition set_initialized (v : bool) : M State unit :=
  update_self (fun b => mkRobotBartender (inventory b) (nova_instance b) (controller b)
                                         (motion_group b) (tcp b) v).

(** [await self.motion_group.plan(actions, self.tcp)] *)
Definition plan (actions : list Action) : M State Trajectory :=
  s <- get ;;
  match motion_group (self s) with
  | None => raise "'NoneType' object has no attribute 'plan'"
  | Some _ =>
      robot_call (CPlan actions (tcp (self s))) ;;
      ret (joint_trajectory actions)
  end.

(** [await self.motion_group.execute(joint_traj, self.tcp, actions=actions)] *)
Definition execute (joint_traj : Trajectory) (actions : list Action) : M State unit :=
  s <- get ;;
  match motion_group (self s) with
  | None => raise "'NoneType' object has no attribute 'execute'"
  | Some _ => robot_call (CExecute joint_traj (tcp (self s)) actions)
  end.

(** [await self.controller.write(key, value)] *)
Definition write (key : string) (value : bool) : M State unit :=
  s <- get ;;
  match controller (self s) with
  | None => raise "'NoneType' object has no attribute 'write'"
  | Some _ => robot_call (CWrite key value)
  end.

(** [{k: list(v) for k, v in d.items()}] *)
Definition copy_inventory (d : Inventory) : Inventory :=
  fold_left (fun acc kv => dict_set (fst kv) (snd kv) acc) d [].

(** [RobotBartender.initialize] *)
Definition initialize : M State unit :=
  s <- get ;;
  if initialized (self s) then
    log WARNING "Robot already initialized"
  else
    log INFO "Initializing robot bartender..." ;;
    (* Reset inventory *)
    set_inventory (copy_inventory INITIAL_INVENTORY) ;;
    try_except
      ((* Connect to robot *)
       robot_call CNova ;;
       set_nova_instance (Some Nova_object) ;;
       robot_call CNovaEnter ;;
       robot_call (CController CONTROLLER_NAME) ;;
       set_controller (Some (Controller_object CONTROLLER_NAME)) ;;
       robot_call CMotionGroup ;;
       set_motion_group (Some MotionGroup_object) ;;
       robot_call CTcpNames ;;
       s1 <- get ;;
       match nth_error (tcp_names_reply (robot s1)) 1 with
       | None => raise "list index out of range"
       | Some name =>
           set_tcp (Some name) ;;
           (* Move to start position *)
           log INFO "Moving to start position..." ;;
           let actions := [cartesian_ptp START_POSE] in
           joint_traj <- plan actions ;;
           execute joint_traj actions ;;
           set_initialized true ;;
           log INFO "Robot ready!"
       end)
      (fun e =>
         log ERROR ("Failed to initialize robot: " ++ e) ;;
         raise e).

(** The texts [serve_beverage] returns. *)
Definition not_initialized_text : string := "❌ Robot not initialized".
Definition unknown_beverage_text (beverage : string) (keys : list string) : string :=
  "❌ Unknown beverage '" ++ beverage ++ "'. Available: " ++ join ", " keys.
Definition out_of_stock_text (beverage : string) : string :=
  "❌ Sorry, " ++ beverage ++ " is out of stock!".
Definition served_text (beverage : string) (remaining : nat) : string :=
  "✅ Successfully served " ++ beverage ++ "! (" ++ str_of_nat remaining ++ " left in stock)".
Definition error_serving_text (beverage e : string) : string :=
  "❌ Error serving " ++ beverage ++ ": " ++ e.

(** Every reply starts with one of two markers. *)
Definition is_success (text : string) : bool := String.prefix "✅" text.
Definition is_failure (text : string) : bool := String.prefix "❌" text.

Definition approach : Vec6 := (0, 0, -70, 0, 0, 0)%Q.

(** The [try] block of [serve_beverage]. *)
Definition serve_beverage_try (beverage : string) (target_pose : Pose) (remaining : nat)
  : M State string :=
  log INFO ("Serving " ++ beverage ++ " (" ++ str_of_nat remaining ++ " remaining)...") ;;
  (* Move to pickup *)
  let actions := [ cartesian_ptp START_POSE;
                   cartesian_ptp (Pose_matmul target_pose approach);
                   cartesian_ptp target_pose ] in
  joint_traj <- plan actions ;;
  execute joint_traj actions ;;
  (* Grip *)
  write "tool_out[1]" false ;;
  write "tool_out[0]" true ;;
  sleep 3.0 ;;
  (* Deliver to customer *)
  let actions := [ cartesian_ptp (Pose_matmul target_pose approach);
                   cartesian_ptp CUSTOMER ] in
  joint_traj <- plan actions ;;
  execute joint_traj actions ;;
  (* Release *)
  sleep 2.0 ;;
  write "tool_out[0]" false ;;
  write "tool_out[1]" true ;;
  sleep 4.0 ;;
  (* Return home *)
  let actions := [cartesian_ptp START_POSE] in
  joint_traj <- plan actions ;;
  execute joint_traj actions ;;
  ret (served_text beverage remaining).

(** The [except Exception as e] block of [serve_beverage]. *)
Definition serve_beverage_except (beverage e : string) : M State string :=
  log ERROR ("Error serving " ++ beverage ++ ": " ++ e) ;;
  (* Try to recover *)
  try_except
    (let actions := [cartesian_ptp START_POSE] in
     joint_traj <- plan actions ;;
     execute joint_traj actions)
    (fun recovery_error => log ERROR ("Recovery failed: " ++ recovery_error)) ;;
  ret (error_serving_text beverage e).

(** [RobotBartender.serve_beverage] *)
Definition serve_beverage (beverage : string) : M State string :=
  s <- get ;;
  if negb (initialized (self s)) then ret not_initialized_text
  else
    let beverage := lower beverage in
    match dict_get beverage (inventory (self s)) with
    | None =>
        let available := dict_keys (inventory (self s)) in
        ret (unknown_beverage_text beverage available)
    | Some [] => ret (out_of_stock_text beverage)
    | Some (target_pose :: rest) =>
        (* Get next available pose: self.inventory[beverage].pop(0) *)
        set_inventory (dict_set beverage rest (inventory (self s))) ;;
        let remaining := length rest in
        try_except (serve_beverage_try beverage target_pose remaining)
                   (serve_beverage_except beverage)
    end.

(** [sorted(d.items())]: the keys are distinct, so the pairs are ordered by key. *)
Fixpoint insert_sorted (kv : string * list Pose) (l : list (string * list Pose))
  : list (string * list Pose) :=
  match l with
  | [] => [kv]
  | kv' :: r =>
      if String.leb (fst kv) (fst kv') then kv :: l else kv' :: insert_sorted kv r
  end.

Definition sorted_items (d : Inventory) : list (string * list Pose) :=
  fold_right insert_sorted [] d.

Definition inventory_line (kv : string * list Pose) : string :=
  let count := length (snd kv) in
  let status := if (0 <? count)%nat then "✅" else "❌" in
  "  " ++ status ++ " " ++ capitalize (fst kv) ++ ": " ++ str_of_nat count ++ " available".

(** [RobotBartender.check_inventory] *)
Definition check_inventory (b : RobotBartender) : string :=
  match inventory b with
  | [] => "📦 Inventory is empty"
  | _ =>
      join newline ("📦 Current Inventory:" :: map inventory_line (sorted_items (inventory b)))
  end.

(** [RobotBartender.go_home] *)
Definition go_home : M State string :=
  s <- get ;;
  if negb (initialized (self s)) then ret not_initialized_text
  else
    try_except
      (log INFO "Moving to home position..." ;;
       let actions := [cartesian_ptp START_POSE] in
       joint_traj <- plan actions ;;
       execute joint_traj actions ;;
       ret "✅ Robot returned to home position")
      (fun e =>
         log ERROR ("Error going home: " ++ e) ;;
         ret ("❌ Error: " ++ e)).

(** [arguments.get("beverage", "")] *)
Definition get_beverage (arguments : dict string) : string :=
  match dict_get "beverage" arguments with
  | Some v => v
  | None => ""
  end.

(** [handle_call_tool]: the text of the single [TextContent] it returns. *)
Definition handle_call_tool (name : string) (arguments : dict string) : M State string :=
  log INFO ("Tool called: " ++ name ++ " with args: " ++ repr_dict arguments) ;;
  s <- get ;;
  (* Initialize robot on first tool call *)
  failed <- (if negb (initialized (self s)) then
               try_except
                 (initialize ;; ret None)
                 (fun e =>
                    let error_msg := "❌ Failed to initialize robot: " ++ e in
                    log ERROR error_msg ;;
                    ret (Some error_msg))
             else ret None) ;;
  match failed with
  | Some error_msg => ret error_msg
  | None =>
      try_except
        (if String.eqb name "serve_drink" then
           serve_beverage (get_beverage arguments)
         else if String.eqb name "check_inventory" then
           s1 <- get ;; ret (check_inventory (self s1))
         else if String.eqb name "go_home" then
           go_home
         else
           ret ("❌ Unknown tool: " ++ name))
        (fun e =>
           log ERROR ("Error executing tool " ++ name ++ ": " ++ e) ;;
           ret ("❌ Error: " ++ e))
  end.

(** The tool [serve_drink] as a client calls it. *)
Definition serve_drink (beverage : string) : M State string :=
  handle_call_tool "serve_drink" [("beverage", beverage)].

(** Remaining stock of a beverage: [len(self.inventory[beverage])], and 0
    for a beverage the inventory does not know. *)
Definition stock (beverage : string) (b : RobotBartender) : nat :=
  match dict_get beverage (inventory b) with
  | Some poses => length poses
  | None => 0
  end.

(** The vocabulary of the step pipeline, as events: a Move plans the
    waypoints and executes the trajectory; an Actuate writes the two gripper
    lines, first the one that goes low; a Dwell sleeps.  Close and open are
    the writes this file makes under [# Grip] and [# Release]. *)
Definition Move (waypoints : list Pose) (tcp : option string) : list Event :=
  let actions := map cartesian_ptp waypoints in
  [ ECall (CPlan actions tcp) None;
    ECall (CExecute (joint_trajectory actions) tcp actions) None ].

Definition Actuate_close : list Event :=
  [ ECall (CWrite "tool_out[1]" false) None; ECall (CWrite "tool_out[0]" true) None ].

Definition Actuate_open : list Event :=
  [ ECall (CWrite "tool_out[0]" false) None; ECall (CWrite "tool_out[1]" true) None ].

Definition Dwell (seconds : Q) : list Event := [ESleep seconds].

(** The fixed pipeline of one serve from the pick pose [target]. *)
Definition pipeline (target : Pose) (tcp : option string) : list Event :=
  (Move [START_POSE; Pose_matmul target approach; target] tcp
   ++ Actuate_close
   ++ Dwell 3.0
   ++ Move [Pose_matmul target approach; CUSTOMER] tcp
   ++ Dwell 2.0
   ++ Actuate_open
   ++ Dwell 4.0
   ++ Move [START_POSE] tcp)%list.

(** No robot call still to come raises. *)
Definition no_faults (w : World) : Prop := Forall (fun o => o = None) (oracle w).

(** The bartender is initialised and holds its robot handles, as it does
    after a successful [initialize]. *)
Definition connected (b : RobotBartender) : Prop :=
  initialized b = true /\ motion_group b <> None /\ controller b <> None.

(** The flag [initialized] is only set on a bartender that holds its handles. *)
Definition handles_when_initialized (b : RobotBartender) : Prop :=
  initialized b = true -> motion_group b <> None /\ controller b <> None.

(** The states of the server: a new bartender with the robot in any state,
    then tool calls. *)
Inductive reachable : State -> Prop :=
| reachable_new (w : World) : reachable (mkState __init__ w)
| reachable_call (s : State) (name : string) (arguments : dict string) :
    reachable s -> reachable (final_state (handle_call_tool name arguments s)).

(** Tool calls [serve_drink] one after the other; the replies in order. *)
Fixpoint serve_drinks (tokens : list string) : M State (list string) :=
  match tokens with
  | [] => ret []
  | t :: rest =>
      reply <- serve_drink t ;;
      replies <- serve_drinks rest ;;
      ret (reply :: replies)
  end.

(** The replies to the calls that ask for [beverage]. *)
Fixpoint replies_for (beverage : string) (tokens replies : list string) : list string :=
  match tokens, replies with
  | t :: ts, r :: rs =>
      if String.eqb (lower t) beverage then r :: replies_for beverage ts rs
      else replies_for beverage ts rs
  | _, _ => []
  end.

(** How many of the calls ask for [beverage]. *)
Definition calls_for (beverage : string) (tokens : list string) : nat :=
  length (filter (fun t => String.eqb (lower t) beverage) tokens).

(** The replies a stock of [n] gives to [k] calls: served with [n-1], ...,
    [0] left, then out of stock. *)
Fixpoint countdown (beverage : string) (n k : nat) : list string :=
  match k with
  | O => []
  | S k' =>
      match n with
      | O => out_of_stock_text beverage :: countdown beverage 0 k'
      | S n' => served_text beverage n' :: countdown beverage n' k'
      end
  end.

(** The bartender as a successful [initialize] leaves it when the robot
    names its tools "Flange" and "Gripper", and a robot none of whose calls
    raises. *)
Definition ready_bartender : RobotBartender :=
  mkRobotBartender INITIAL_INVENTORY (Some Nova_object)
                   (Some (Controller_object CONTROLLER_NAME)) (Some MotionGroup_object)
                   (Some "Gripper") true.

Definition calm_robot : World := mkWorld [] ["Flange"; "Gripper"] (false, false).

(** A reply to a call for [beverage] that agrees with the reply [expected] of
    a robot without faults: it is that reply, or, where a serve was due, the
    step-failure text. *)
Definition agrees_up_to_failure (beverage expected reply : string) : Prop :=
  reply = expected
  \/ (is_success expected = true /\ exists e, reply = error_serving_text beverage e).

(** Everything a serve that goes through emits. *)
Definition success_events (beverage : string) (remaining : nat) (target : Pose)
  (tcp : option string) : list Event :=
  ELog INFO ("Serving " ++ beverage ++ " (" ++ str_of_nat remaining ++ " remaining)...")
  :: pipeline target tcp.

(** The robot calls of a serve that goes through, in order. *)
Definition pipeline_calls (target : Pose) (tcp : option string) : list Call :=
  map fst (calls_of (pipeline target tcp)).

(** What the recovery emits, given what the oracle holds for the calls after
    the failed one: one Move home, its [execute] only if the [plan] came
    back, and a log line if either raised. *)
Definition recovery_events (tcp : option string) (future : list (option string))
  : list Event :=
  let actions := [cartesian_ptp START_POSE] in
  match hd None future with
  | Some e' =>
      [ ECall (CPlan actions tcp) (Some e');
        ELog ERROR ("Recovery failed: " ++ e') ]
  | None =>
      ECall (CPlan actions tcp) None ::
      match hd None (tl future) with
      | Some e' =>
          [ ECall (CExecute (joint_trajectory actions) tcp actions) (Some e');
            ELog ERROR ("Recovery failed: " ++ e') ]
      | None =>
          [ ECall (CExecute (joint_trajectory actions) tcp actions) None ]
      end
  end.

End mcp_bartender.

(* ================================================================== *)
(** * [start_here_voice.py] *)

Module start_here_voice.

Definition controller_name : string := "ur5e".

(** Robot poses *)
Definition start_pose : Pose := mkPose (102.9, -505.6, 483.4, -1.496, -2.5662, 0.0903)%Q.
Definition coke1 : Pose := mkPose (56.8, -304.2, 323.7, 2.7788, -1.4014, 0.011)%Q.
Definition coke0 : Pose := mkPose (56.8, -387.9, 323.7, 2.7788, -1.4013, 0.0111)%Q.
Definition redbull0 : Pose := mkPose (-30, -297.8, 320.9, 2.7793, -1.401, 0.0113)%Q.
Definition redbull1 : Pose := mkPose (-29, -385.3, 320.9, 2.779, -1.4015, 0.011)%Q.
Definition fanta0 : Pose := mkPose (-119.5, -387.7, 321, 2.7789, -1.4012, 0.011)%Q.
Definition customer : Pose := mkPose (103.9, -699.5, 631.4, 1.2941, 2.558, -0.8835)%Q.

(** Inventory: maps beverage name to list of available poses *)
Definition INVENTORY : dict (list Pose) :=
  [ ("coke", [coke0; coke1]);
    ("redbull", [redbull0; redbull1]);
    ("fanta", [fanta0]);
    ("sting", [redbull0; redbull1]) ].

(** [VoiceListener.state]: ['wake'] or ['command']. *)
Inductive RecognitionState : Type := wake | command.

(** The fields of [VoiceListener] the loop reads and writes; the engine,
    recorder and thread handles are only passed to their libraries. *)
Record VoiceListener : Type := mkVoiceListener {
  state : RecognitionState;
  running : bool
}.

(** [rhino.get_inference()] *)
Record Inference : Type := mkInference {
  is_understood : bool;
  intent : string;
  slots : dict string
}.

(** One [pcm = self.recorder.read()] with what the engines answer on it:
    [porcupine.process(pcm)], [rhino.process(pcm)], [rhino.get_inference()].
    [Broken e]: the read or the engine call raised [e]. *)
Inductive Frame : Type :=
| Heard (keyword_index : Z) (is_finalized : bool) (inference : Inference)
| Broken (e : string).

(** The listener thread, the queue between the two threads, and the control
    loop's inventory and robot. *)
Record System : Type := mkSystem {
  listener : VoiceListener;
  command_queue : list string;
  inventory : dict (list Pose);
  robot : World
}.

#[export] Instance System_HasWorld : HasWorld System :=
  {| world := robot;
     with_world := fun w s => mkSystem (listener s) (command_queue s) (inventory s) w |}.

Definition set_state (v : RecognitionState) : M System unit :=
  fun s => (Ok tt,
            mkSystem (mkVoiceListener v (running (listener s)))
                     (command_queue s) (inventory s) (robot s), []).

Definition set_running (v : bool) : M System unit :=
  fun s => (Ok tt,
            mkSystem (mkVoiceListener (state (listener s)) v)
                     (command_queue s) (inventory s) (robot s), []).

Definition set_inventory (v : dict (list Pose)) : M System unit :=
  fun s => (Ok tt, mkSystem (listener s) (command_queue s) v (robot s), []).

(** [command_queue.put(token)]: the queue is unbounded, the token goes last. *)
Definition queue_put (token : string) : M System unit :=
  fun s => (Ok tt,
            mkSystem (listener s) (command_queue s ++ [token])%list (inventory s) (robot s),
            [EPut token]).

(** [command_queue.get(timeout=0.1)]: the oldest token, or [queue.Empty]
    when none arrived within the timeout. *)
Definition queue_get : M System string :=
  fun s =>
    match command_queue s with
    | [] => (Raise "", s, [])
    | token :: rest =>
        (Ok token, mkSystem (listener s) rest (inventory s) (robot s), [EGet token])
    end.

(** The body of [while self.running:] in [VoiceListener._listen_loop]. *)
Definition _listen_loop_body (f : Frame) : M System unit :=
  match f with
  | Broken e => raise e
  | Heard keyword_index is_finalized inference =>
      s <- get ;;
      match state (listener s) with
      | wake =>
          if (0 <=? keyword_index)%Z then
            log INFO "Wake word detected! Listening for command..." ;;
            set_state command
          else ret tt
      | command =>
          if is_finalized then
            (if is_understood inference then
               log INFO ("Command understood - Intent: " ++ intent inference
                         ++ ", Slots: " ++ repr_dict (slots inference)) ;;
               match dict_get "beverage" (slots inference) with
               | Some v =>
                   let beverage := lower v in
                   log INFO ("Queuing beverage request: " ++ beverage) ;;
                   queue_put beverage
               | None => log WARNING "Command understood but no beverage specified"
               end
             else log WARNING "Command not understood") ;;
            (* Reset to wake word detection *)
            set_state wake ;;
            log INFO ("Ready for next command (say 'Felix')..." ++ newline)
          else ret tt
      end
  end.

(** [while self.running: ...] over the frames the recorder delivers. *)
Fixpoint _listen_loop_while (frames : list Frame) : M System unit :=
  match frames with
  | [] => ret tt
  | f :: rest =>
      s <- get ;;
      if running (listener s) then _listen_loop_body f ;; _listen_loop_while rest
      else ret tt
  end.

(** [VoiceListener._listen_loop].  [self.recorder.start()] comes first inside
    the [try]; if it raises, that is a [Broken] first frame. *)
Definition _listen_loop (frames : list Frame) : M System unit :=
  try_except
    (_listen_loop_while frames)
    (fun e =>
       log ERROR ("Error in voice listener: " ++ e) ;;
       set_running false).

Definition write (key : string) (value : bool) : M System unit :=
  robot_call (CWrite key value).

(** Function to initialize the grippers to open state. *)
Definition initialize_grippers : M System unit :=
  write "tool_out[0]" true ;;
  write "tool_out[1]" false ;;
  write "tool_out[0]" false.

(** Activate gripper (close) *)
Definition close_grippers : M System unit :=
  write "tool_out[0]" false ;;
  write "tool_out[1]" true.

(** Activate gripper (open) *)
Definition open_grippers : M System unit :=
  write "tool_out[1]" false ;;
  write "tool_out[0]" true.

Definition plan (actions : list Action) (tcp : string) : M System Trajectory :=
  robot_call (CPlan actions (Some tcp)) ;;
  ret (joint_trajectory actions).

Definition execute (joint_traj : Trajectory) (tcp : string) (actions : list Action)
  : M System unit :=
  robot_call (CExecute joint_traj (Some tcp) actions).

(** [serve_beverage]: [True] if successful, [False] if beverage unavailable. *)
Definition serve_beverage (beverage : string) (tcp : string) : M System bool :=
  s <- get ;;
  match dict_get beverage (inventory s) with
  | None =>
      log ERROR ("Unknown beverage: " ++ beverage) ;;
      ret false
  | Some [] =>
      log ERROR ("Sorry, " ++ beverage ++ " is out of stock!") ;;
      ret false
  | Some (target_pose :: rest) =>
      (* Get next available pose for this beverage *)
      set_inventory (dict_set beverage rest (inventory s)) ;;
      log INFO ("Serving " ++ beverage ++ " - " ++ str_of_nat (length rest) ++ " remaining") ;;
      try_except
        (initialize_grippers ;;
         (* --- Move to pickup --- *)
         log INFO ("Moving to pick up " ++ beverage ++ "...") ;;
         let actions := [ cartesian_ptp start_pose;
                          cartesian_ptp (Pose_matmul target_pose (0, 0, -70, 0, 0, 0)%Q);
                          cartesian_ptp target_pose ] in
         joint_traj <- plan actions tcp ;;
         execute joint_traj tcp actions ;;
         (* Activate gripper (close) *)
         log INFO "Gripping beverage..." ;;
         close_grippers ;;
         sleep 3.0 ;;
         (* --- Move to customer --- *)
         log INFO "Delivering to customer..." ;;
         let actions := [ cartesian_ptp (Pose_matmul target_pose (0, 0, -200, 0, 0, 0)%Q);
                          cartesian_ptp customer ] in
         joint_traj <- plan actions tcp ;;
         execute joint_traj tcp actions ;;
         (* Release item (open gripper) *)
         log INFO "Releasing beverage..." ;;
         sleep 2.0 ;;
         open_grippers ;;
         sleep 4.0 ;;
         (* --- Return home --- *)
         log INFO "Returning to start position..." ;;
         let actions := [cartesian_ptp start_pose] in
         joint_traj <- plan actions tcp ;;
         execute joint_traj tcp actions ;;
         log INFO ("Successfully served " ++ beverage ++ "!") ;;
         ret true)
        (fun e =>
           log ERROR ("Error serving " ++ beverage ++ ": " ++ e) ;;
           (* Try to return home safely *)
           try_except
             (let actions := [cartesian_ptp start_pose] in
              joint_traj <- plan actions tcp ;;
              execute joint_traj tcp actions)
             (fun recovery_error =>
                log ERROR ("Could not return home: " ++ recovery_error)) ;;
           ret false)
  end.

Definition rule : string := String.concat "" (repeat "=" 50).

(** The body of [while True:] in [voice_bartender]; [tcp] is the tool the
    program picked at start-up. *)
Definition voice_bartender_body (tcp : string) : M System unit :=
  try_except
    (beverage <- queue_get ;;
     log INFO (newline ++ rule) ;;
     log INFO ("Processing order: " ++ beverage) ;;
     log INFO (rule ++ newline) ;;
     serve_beverage beverage tcp ;;
     ret tt)
    (fun _ =>
       (* No command available, just wait a bit *)
       sleep 0.1).

(** The two threads meet only in the queue, and [queue.Queue] makes [put]
    and [get] atomic, so a run of the program is an interleaving of listener
    iterations and control-loop iterations. *)
Inductive Step : Type :=
| Listen (f : Frame)     (* the listener thread reads and handles one frame *)
| Poll.                  (* the control loop runs one iteration *)

Definition step (tcp : string) (st : Step) : M System unit :=
  match st with
  | Listen f =>
      s <- get ;;
      if running (listener s) then _listen_loop [f] else ret tt
  | Poll => voice_bartender_body tcp
  end.

Fixpoint run (tcp : string) (steps : list Step) : M System unit :=
  match steps with
  | [] => ret tt
  | st :: rest => step tcp st ;; run tcp rest
  end.

(** A listener that has heard the wake word, with an empty queue and the
    full inventory. *)
Definition listening : System :=
  mkSystem (mkVoiceListener command true) [] INVENTORY
           (mkWorld [] ["Flange"; "Gripper"] (false, false)).

(** "get me a Coke", understood. *)
Definition coke_please : Inference :=
  mkInference true "orderBeverage" [("beverage", "Coke")].

(** The tokens a finalized inference makes the listener queue. *)
Definition requested (inference : Inference) : list string :=
  if is_understood inference then
    match dict_get "beverage" (slots inference) with
    | Some v => [lower v]
    | None => []
    end
  else [].

(** First in, first out: what was in the queue and what was put since is
    what was taken out followed by what is still in it. *)
Definition fifo {A} (m : M System A) : Prop :=
  forall s,
    (command_queue s ++ puts_of (events (m s)))%list
    = (gets_of (events (m s)) ++ command_queue (final_state (m s)))%list.

(** [m] leaves the queue alone. *)
Definition queue_frame {A} (m : M System A) : Prop :=
  forall s,
    command_queue (final_state (m s)) = command_queue s
    /\ puts_of (events (m s)) = []
    /\ gets_of (events (m s)) = [].

End start_here_voice.

(* ================================================================== *)
(** * Properties *)

(** ** Strings and dictionaries *)

Lemma lower_ascii_idempotent (c : ascii) : lower_ascii (lower_ascii c) = lower_ascii c.
Proof. destruct c as [[] [] [] [] [] [] [] []]; reflexivity. Qed.

Lemma lower_idempotent (s : string) : lower (lower s) = lower s.
Proof.
  induction s as [|c r IH]; simpl.
  - reflexivity.
  - now rewrite lower_ascii_idempotent, IH.
Qed.

Section DictFacts.
Variable V : Type.
Implicit Types (d : dict V) (k : string) (v : V).

Lemma dict_get_set_same k v d :
  dict_get k (dict_set k v d) = Some v.
Proof.
  induction d as [|[k' v'] r IH]; simpl.
  - now rewrite String.eqb_refl.
  - destruct (String.eqb k k') eqn:E; simpl; rewrite E; auto.
Qed.

Lemma dict_get_set_other k k' v d :
  k' <> k -> dict_get k' (dict_set k v d) = dict_get k' d.
Proof.
  intros Hne. induction d as [|[k0 v0] r IH]; simpl.
  - destruct (String.eqb k' k) eqn:E; [apply String.eqb_eq in E; contradiction | reflexivity].
  - destruct (String.eqb k k0) eqn:E; simpl.
    + apply String.eqb_eq in E; subst k0.
      destruct (String.eqb k' k) eqn:E'; [apply String.eqb_eq in E'; contradiction | reflexivity].
    + now rewrite IH.
Qed.

(** Assigning to a key the dictionary has keeps the keys and their order. *)
Lemma dict_keys_set_present k v d :
  dict_get k d <> None -> dict_keys (dict_set k v d) = dict_keys d.
Proof.
  unfold dict_keys. induction d as [|[k0 v0] r IH]; simpl; intros Hin.
  - contradiction.
  - destruct (String.eqb k k0) eqn:E; simpl; [reflexivity|].
    now rewrite IH.
Qed.
End DictFacts.

(** ** The monad *)

Section Keeps.
Context {S T : Type}.
Variable proj : S -> T.

Lemma keeps_ret {A} (a : A) : keeps proj (ret a).
Proof. intro s. reflexivity. Qed.

Lemma keeps_raise {A} (e : string) : keeps proj (raise e : M S A).
Proof. intro s. reflexivity. Qed.

Lemma keeps_get : keeps proj get.
Proof. intro s. reflexivity. Qed.

Lemma keeps_emit (ev : Event) : keeps proj (emit ev).
Proof. intro s. reflexivity. Qed.

Lemma keeps_bind {A B} (m : M S A) (f : A -> M S B) :
  keeps proj m -> (forall a, keeps proj (f a)) -> keeps proj (bind m f).
Proof.
  intros Hm Hf s. unfold bind, final_state.
  specialize (Hm s). unfold final_state in Hm.
  destruct (m s) as [[[a|e] s1] l1]; simpl in *.
  - specialize (Hf a s1). unfold final_state in Hf.
    destruct (f a s1) as [[r s2] l2]; simpl in *. congruence.
  - exact Hm.
Qed.

Lemma keeps_try_except {A} (body : M S A) (handler : string -> M S A) :
  keeps proj body -> (forall e, keeps proj (handler e)) -> keeps proj (try_except body handler).
Proof.
  intros Hb Hh s. unfold try_except, final_state.
  specialize (Hb s). unfold final_state in Hb.
  destruct (body s) as [[[a|e] s1] l1]; simpl in *.
  - exact Hb.
  - specialize (Hh e s1). unfold final_state in Hh.
    destruct (handler e s1) as [[r s2] l2]; simpl in *. congruence.
Qed.
End Keeps.

Create HintDb keeps.
#[local] Hint Resolve keeps_ret keeps_raise keeps_get keeps_emit : keeps.

(* ================================================================== *)
(** ** Exceptions that stay inside *)

Section Returns.
Context {S : Type}.

Lemma returns_ret {A} (a : A) : returns (ret a : M S A).
Proof. intro s. now exists a. Qed.

Lemma returns_get : returns (get : M S S).
Proof. intro s. now exists s. Qed.

Lemma returns_emit (ev : Event) : returns (emit ev : M S unit).
Proof. intro s. now exists tt. Qed.

Lemma returns_bind {A B} (m : M S A) (f : A -> M S B) :
  returns m -> (forall a, returns (f a)) -> returns (bind m f).
Proof.
  intros Hm Hf s. destruct (Hm s) as [a Ha].
  unfold bind, outcome in *. destruct (m s) as [[r s1] l1]. cbn in Ha. subst r.
  destruct (Hf a s1) as [b Hb]. destruct (f a s1) as [[r2 s2] l2]. cbn in *. now exists b.
Qed.

(** A [try] whose handler returns, returns. *)
Lemma returns_try_except {A} (body : M S A) (handler : string -> M S A) :
  (forall e, returns (handler e)) -> returns (try_except body handler).
Proof.
  intros Hh s. unfold try_except, outcome.
  destruct (body s) as [[[a|e] s1] l1]; cbn.
  - now exists a.
  - destruct (Hh e s1) as [b Hb]. unfold outcome in Hb.
    destruct (handler e s1) as [[r2 s2] l2]. cbn in *. now exists b.
Qed.

Lemma bind_ret_l {A B} (a : A) (f : A -> M S B) (s : S) : bind (ret a) f s = f a s.
Proof. unfold bind, ret. now destruct (f a s) as [[r s2] l2]. Qed.

(** A first part that returns at once and emits nothing. *)
Lemma bind_unit_l {A B} (m : M S A) (f : A -> M S B) (s s1 : S) (a : A) :
  m s = (Ok a, s1, []) -> outcome (bind m f s) = outcome (f a s1).
Proof.
  intro Hm. unfold bind, outcome. rewrite Hm. now destruct (f a s1) as [[r s2] l2].
Qed.

Lemma bind_get {B} (f : S -> M S B) (s : S) : bind get f s = f s s.
Proof. unfold bind, get. now destruct (f s s) as [[r s2] l2]. Qed.

Lemma bind_ext {A B} (m : M S A) (f g : A -> M S B) (s : S) :
  (forall a s', f a s' = g a s') -> bind m f s = bind m g s.
Proof.
  intro H. unfold bind. destruct (m s) as [[[a|e] s1] l1]; [|reflexivity]. now rewrite H.
Qed.

Lemma bind_assoc {A B C} (m : M S A) (f : A -> M S B) (g : B -> M S C) (s : S) :
  bind (bind m f) g s = bind m (fun a => bind (f a) g) s.
Proof.
  unfold bind. destruct (m s) as [[[a|e] s1] l1]; [|reflexivity].
  destruct (f a s1) as [[[b|e] s2] l2]; [|reflexivity].
  destruct (g b s2) as [[r s3] l3]. now rewrite app_assoc.
Qed.

(** A [try] around a sequence whose first part returned. *)
Lemma try_except_bind_ok {A B} (m : M S A) (f : A -> M S B) (h : string -> M S B)
  (s s1 : S) (a : A) (l1 : list Event) :
  m s = (Ok a, s1, l1) ->
  try_except (bind m f) h s =
    (outcome (try_except (f a) h s1),
     final_state (try_except (f a) h s1),
     (l1 ++ events (try_except (f a) h s1))%list).
Proof.
  intro Hm. unfold try_except, bind, outcome, final_state, events. rewrite Hm.
  destruct (f a s1) as [[[b|e] s2] l2]; cbn; [reflexivity|].
  destruct (h e s2) as [[r s3] l3]. cbn. now rewrite app_assoc.
Qed.
End Returns.

Section Preserves.
Context {S T : Type}.
Variable proj : S -> T.
Variable P : T -> Prop.

Lemma preserves_of_keeps {A} (m : M S A) : keeps proj m -> preserves proj P m.
Proof. intros K s HP. now rewrite K. Qed.

Lemma preserves_bind {A B} (m : M S A) (f : A -> M S B) :
  preserves proj P m -> (forall a, preserves proj P (f a)) -> preserves proj P (bind m f).
Proof.
  intros Hm Hf s HP. specialize (Hm s HP). unfold bind, final_state in *.
  destruct (m s) as [[[a|e] s1] l1]; cbn in *; [|exact Hm].
  specialize (Hf a s1 Hm). unfold final_state in Hf.
  now destruct (f a s1) as [[r s2] l2].
Qed.

Lemma preserves_try_except {A} (body : M S A) (handler : string -> M S A) :
  preserves proj P body -> (forall e, preserves proj P (handler e)) ->
  preserves proj P (try_except body handler).
Proof.
  intros Hb Hh s HP. specialize (Hb s HP). unfold try_except, final_state in *.
  destruct (body s) as [[[a|e] s1] l1]; cbn in *; [exact Hb|].
  specialize (Hh e s1 Hb). unfold final_state in Hh.
  now destruct (handler e s1) as [[r s2] l2].
Qed.
End Preserves.

Section Yields.
Context {S A : Type}.
Variable P : A -> Prop.

Lemma yields_ret (a : A) : P a -> yields P (ret a : M S A).
Proof. intros HP s a' E. cbn in E. now injection E as <-. Qed.

Lemma yields_bind {B} (m : M S B) (f : B -> M S A) :
  (forall b, yields P (f b)) -> yields P (bind m f).
Proof.
  intros Hf s a E. unfold bind, outcome in E.
  destruct (m s) as [[[b|e] s1] l1]; [|discriminate E].
  specialize (Hf b s1 a). unfold outcome in Hf.
  destruct (f b s1) as [[r s2] l2]. exact (Hf E).
Qed.

Lemma yields_try_except (body : M S A) (handler : string -> M S A) :
  yields P body -> (forall e, yields P (handler e)) -> yields P (try_except body handler).
Proof.
  intros Hb Hh s a E. unfold try_except, outcome in E.
  specialize (Hb s). unfold outcome in Hb.
  destruct (body s) as [[[b|e] s1] l1]; [exact (Hb a E)|].
  specialize (Hh e s1 a). unfold outcome in Hh.
  destruct (handler e s1) as [[r s2] l2]. exact (Hh E).
Qed.
End Yields.

Section LogFirst.
Context {S A : Type} `{HasWorld S}.
Variables (lvl : Level) (msg : string) (k : unit -> M S A) (s : S).

(** A log line in front changes neither the result, nor the final state, nor
    the robot calls. *)
Lemma bind_log_outcome : outcome (bind (log lvl msg) k s) = outcome (k tt s).
Proof. unfold bind, log, emit, outcome. now destruct (k tt s) as [[r s2] l2]. Qed.

Lemma bind_log_final_state : final_state (bind (log lvl msg) k s) = final_state (k tt s).
Proof. unfold bind, log, emit, final_state. now destruct (k tt s) as [[r s2] l2]. Qed.

Lemma bind_log_calls :
  calls_of (events (bind (log lvl msg) k s)) = calls_of (events (k tt s)).
Proof. unfold bind, log, emit, events. now destruct (k tt s) as [[r s2] l2]. Qed.
End LogFirst.

Lemma try_except_ext {S A} (body body' : M S A) (handler : string -> M S A) (s : S) :
  (forall s', body s' = body' s') -> try_except body handler s = try_except body' handler s.
Proof. intro H. unfold try_except. now rewrite H. Qed.

Create HintDb returns.
#[local] Hint Resolve returns_ret returns_get returns_emit : returns.

Lemma puts_of_app (l1 l2 : list Event) : puts_of (l1 ++ l2) = (puts_of l1 ++ puts_of l2)%list.
Proof.
  induction l1 as [|[c r|d|lvl msg|t|t] l1 IH]; cbn; auto. now rewrite IH.
Qed.

Lemma gets_of_app (l1 l2 : list Event) : gets_of (l1 ++ l2) = (gets_of l1 ++ gets_of l2)%list.
Proof.
  induction l1 as [|[c r|d|lvl msg|t|t] l1 IH]; cbn; auto. now rewrite IH.
Qed.

(* ================================================================== *)
(** ** [mcp_bartender.py] *)

Module McpFacts.
Import mcp_bartender.

(** *** Re-initialisation, rejections and casing *)

(** C10. [initialize] on a bartender whose [initialized] flag is set returns
    at once: the bartender (inventory and every other field) and the robot
    are exactly as before, no call reaches the robot, and the only thing done
    is the warning in the log. *)
Theorem initialize_when_initialized (s : State)
  (Hinit : initialized (self s) = true) :
  initialize s = (Ok tt, s, [ELog WARNING "Robot already initialized"])
  /\ calls_of (events (initialize s)) = []
  /\ inventory (self (final_state (initialize s))) = inventory (self s).
Proof.
  assert (E : initialize s = (Ok tt, s, [ELog WARNING "Robot already initialized"])).
  { unfold initialize, bind, get. rewrite Hinit. reflexivity. }
  rewrite E. repeat split.
Qed.

(** The two rejections on an initialised bartender. *)
Lemma serve_beverage_unknown (s : State) (beverage : string)
  (Hinit : initialized (self s) = true)
  (Hget : dict_get (lower beverage) (inventory (self s)) = None) :
  serve_beverage beverage s =
    (Ok (unknown_beverage_text (lower beverage) (dict_keys (inventory (self s)))), s, []).
Proof. unfold serve_beverage, bind, get. cbn. now rewrite Hinit, Hget. Qed.

Lemma serve_beverage_out_of_stock (s : State) (beverage : string)
  (Hinit : initialized (self s) = true)
  (Hget : dict_get (lower beverage) (inventory (self s)) = Some []) :
  serve_beverage beverage s = (Ok (out_of_stock_text (lower beverage)), s, []).
Proof. unfold serve_beverage, bind, get. cbn. now rewrite Hinit, Hget. Qed.

(** C3. A token the inventory does not know, or a known one with no pose
    left, is turned down with a failure text and nothing else happens: the
    state (inventory included) is the one before the call and no event, so no
    motion and no actuation, is issued. *)
Theorem serve_rejects_without_effect (s : State) (beverage : string)
  (Hrej : dict_get (lower beverage) (inventory (self s)) = None \/
          dict_get (lower beverage) (inventory (self s)) = Some []) :
  exists text,
    serve_beverage beverage s = (Ok text, s, [])
    /\ is_failure text = true
    /\ (initialized (self s) = true ->
        text = match dict_get (lower beverage) (inventory (self s)) with
               | None => unknown_beverage_text (lower beverage)
                           (dict_keys (inventory (self s)))
               | Some _ => out_of_stock_text (lower beverage)
               end).
Proof.
  unfold serve_beverage, bind, get.
  destruct (initialized (self s)) eqn:Hi; simpl.
  - destruct Hrej as [H|H]; rewrite H; simpl;
      eexists; (split; [reflexivity | split; [reflexivity | intros _; reflexivity]]).
  - eexists. split; [reflexivity | split; [reflexivity | discriminate]].
Qed.

(** The token is lower-cased before anything looks at it. *)
Lemma serve_beverage_lower (beverage : string) (s : State) :
  serve_beverage beverage s = serve_beverage (lower beverage) s.
Proof. unfold serve_beverage. now rewrite lower_idempotent. Qed.

(** C9. With no ["sting"] key in the inventory, [serve_beverage] on any
    casing of "sting" answers with the unknown-beverage text and changes
    nothing; and for every input the call behaves exactly as on its
    lower-cased form. *)
Theorem sting_unknown_in_any_case (s : State) (beverage : string)
  (Hinit : initialized (self s) = true)
  (Hno : dict_get "sting" (inventory (self s)) = None)
  (Hcase : lower beverage = "sting") :
  serve_beverage beverage s =
    (Ok (unknown_beverage_text "sting" (dict_keys (inventory (self s)))), s, [])
  /\ serve_beverage beverage s = serve_beverage "sting" s
  /\ forall (t : string) (s' : State), serve_beverage t s' = serve_beverage (lower t) s'.
Proof.
  split; [|split].
  - unfold serve_beverage, bind, get. rewrite Hinit, Hcase, Hno. reflexivity.
  - rewrite serve_beverage_lower, Hcase. reflexivity.
  - intros t s'. apply serve_beverage_lower.
Qed.

(** *** The pipeline and the recovery *)

(** The markers tell the replies apart. *)
Lemma reply_markers (b e : string) (n : nat) (keys : list string) :
  is_success (served_text b n) = true
  /\ is_failure (error_serving_text b e) = true
  /\ is_failure (out_of_stock_text b) = true
  /\ is_failure (unknown_beverage_text b keys) = true
  /\ is_failure not_initialized_text = true.
Proof. now repeat split. Qed.

(** Case analysis on what the oracle holds for the next robot call. *)
Ltac next_call :=
  match goal with
  | |- context [hd None ?o] => is_var o; destruct o as [|[?|] ?]; cbn
  | H : context [hd None ?o] |- _ => is_var o; destruct o as [|[?|] ?]; cbn in H
  end.

(** C6. On the success path one serve issues exactly the fixed pipeline, in
    this order and with nothing added, repeated or left out: Move home ->
    approach above the pick pose -> pick pose; Actuate close; Dwell 3;
    Move retreat above the pick pose -> customer; Dwell 2; Actuate open;
    Dwell 4; Move home. *)
Theorem serve_success_pipeline (s s' : State) (beverage text : string) (evs : list Event)
  (Hrun : serve_beverage beverage s = (Ok text, s', evs))
  (Hok : is_success text = true) :
  exists target rest,
    dict_get (lower beverage) (inventory (self s)) = Some (target :: rest)
    /\ text = served_text (lower beverage) (length rest)
    /\ evs = success_events (lower beverage) (length rest) target (tcp (self s)).
Proof.
  destruct s as [[inv nova ctl mg tool ini] [o names io]].
  unfold serve_beverage, bind, get in Hrun. cbn in Hrun.
  destruct ini; cbn in Hrun; [|inversion Hrun; subst; discriminate].
  destruct (dict_get (lower beverage) inv) as [[|target rest]|] eqn:Hget;
    cbn in Hrun; try (inversion Hrun; subst; discriminate).
  exists target, rest. split; [exact Hget|].
  unfold try_except, serve_beverage_try, serve_beverage_except, plan, execute, write,
    bind, get, robot_call, log, sleep, emit, ret, raise, try_except in Hrun.
  cbn in Hrun.
  destruct mg, ctl; cbn in Hrun;
    repeat next_call;
    inversion Hrun; subst; clear Hrun;
    try (cbn in Hok; discriminate Hok);
    split; reflexivity.
Qed.

(** C4. When the [k]-th robot call of the pipeline (a [plan] or [execute]
    of a Move, or a [write] of an Actuate) raises [e]: the serve still
    returns, and what it reports is [e]; the steps after the failed call are
    not issued; after the error is logged exactly one Move home is attempted;
    and if that Move raises as well, this is logged and goes no further. *)
Theorem serve_failure_recovers_once (s : State) (beverage : string)
  (target : Pose) (rest : list Pose) (k : nat) (c : Call) (e : string)
  (future : list (option string))
  (Hinit : initialized (self s) = true)
  (Hmg : motion_group (self s) <> None)
  (Hctl : controller (self s) <> None)
  (Hget : dict_get (lower beverage) (inventory (self s)) = Some (target :: rest))
  (Hk : nth_error (pipeline_calls target (tcp (self s))) k = Some c)
  (Horacle : oracle (robot s) = (repeat None k ++ Some e :: future)%list) :
  outcome (serve_beverage beverage s) = Ok (error_serving_text (lower beverage) e)
  /\ events (serve_beverage beverage s) =
       (before_call k (success_events (lower beverage) (length rest) target (tcp (self s)))
        ++ [ ECall c (Some e);
             ELog ERROR ("Error serving " ++ lower beverage ++ ": " ++ e) ]
        ++ recovery_events (tcp (self s)) future)%list
  /\ moves_attempted (recovery_events (tcp (self s)) future) = 1%nat.
Proof.
  destruct s as [[inv nova [ctl|] [mg|] tool ini] [o names io]];
    cbn in *; try congruence.
  subst ini o.
  unfold serve_beverage, bind, get; cbn; rewrite Hget.
  do 10 (destruct k as [|k];
         [ cbn in Hk; injection Hk as <-;
           destruct future as [|[e1|] [|[e2|] future]];
           (split; [|split]); reflexivity | ]).
  cbn in Hk. destruct k; discriminate.
Qed.

(** *** Only the pop touches the bartender *)

Lemma keeps_self_robot_call (c : Call) : keeps self (robot_call c).
Proof. intro s. unfold robot_call. destruct (hd None _); reflexivity. Qed.

Lemma keeps_self_log lvl msg : keeps self (log lvl msg : M State unit).
Proof. intro s. reflexivity. Qed.

Lemma keeps_self_sleep d : keeps self (sleep d : M State unit).
Proof. intro s. reflexivity. Qed.

#[local] Hint Resolve keeps_self_robot_call keeps_self_log keeps_self_sleep : keeps.

Lemma keeps_self_plan actions : keeps self (plan actions).
Proof.
  unfold plan. apply keeps_bind; [auto with keeps|]. intro s.
  destruct (motion_group (self s)); [|auto with keeps].
  apply keeps_bind; auto with keeps.
Qed.

Lemma keeps_self_execute traj actions : keeps self (execute traj actions).
Proof.
  unfold execute. apply keeps_bind; [auto with keeps|]. intro s.
  destruct (motion_group (self s)); auto with keeps.
Qed.

Lemma keeps_self_write key value : keeps self (write key value).
Proof.
  unfold write. apply keeps_bind; [auto with keeps|]. intro s.
  destruct (controller (self s)); auto with keeps.
Qed.

#[local] Hint Resolve keeps_self_plan keeps_self_execute keeps_self_write : keeps.

Ltac keeps_steps :=
  repeat first [ solve [auto with keeps]
               | apply keeps_bind; [|intro]
               | apply keeps_try_except; [|intro] ].

Lemma keeps_self_serve_beverage_try beverage target remaining :
  keeps self (serve_beverage_try beverage target remaining).
Proof. unfold serve_beverage_try. keeps_steps. Qed.

Lemma keeps_self_serve_beverage_except beverage e :
  keeps self (serve_beverage_except beverage e).
Proof. unfold serve_beverage_except. keeps_steps. Qed.

(** The bartender after [serve_beverage], whatever the robot does: the
    served beverage has lost its first pose, and nothing else moved. *)
Lemma serve_beverage_self (s : State) (beverage : string) :
  self (final_state (serve_beverage beverage s)) =
    if initialized (self s) then
      match dict_get (lower beverage) (inventory (self s)) with
      | Some (_ :: rest) =>
          with_inventory (dict_set (lower beverage) rest (inventory (self s))) (self s)
      | _ => self s
      end
    else self s.
Proof.
  unfold serve_beverage, bind, get. cbn.
  destruct (initialized (self s)); cbn; [|reflexivity].
  destruct (dict_get (lower beverage) (inventory (self s))) as [[|target rest]|];
    cbn; try reflexivity.
  assert (K : keeps self (try_except (serve_beverage_try (lower beverage) target (length rest))
                                     (serve_beverage_except (lower beverage)))).
  { apply keeps_try_except;
      [apply keeps_self_serve_beverage_try | intro; apply keeps_self_serve_beverage_except]. }
  specialize (K (mkState (with_inventory (dict_set (lower beverage) rest
                                                   (inventory (self s))) (self s))
                         (robot s))).
  unfold final_state in *. cbn in K.
  destruct (try_except _ _ _) as [[r s2] l2]. cbn in *. exact K.
Qed.

Lemma stock_with_inventory_same k poses b :
  stock k (with_inventory (dict_set k poses (inventory b)) b) = length poses.
Proof. unfold stock. cbn. now rewrite dict_get_set_same. Qed.

Lemma stock_with_inventory_other k k' poses b :
  k' <> k -> stock k' (with_inventory (dict_set k poses (inventory b)) b) = stock k' b.
Proof. intro Hne. unfold stock. cbn. now rewrite dict_get_set_other. Qed.

(** Replacing a pose list by its tail lowers no other stock. *)
Lemma stock_after_pop (b : RobotBartender) (beverage : string) (target : Pose)
  (rest : list Pose) (k : string)
  (Hget : dict_get beverage (inventory b) = Some (target :: rest)) :
  stock k (with_inventory (dict_set beverage rest (inventory b)) b) <= stock k b.
Proof.
  destruct (String.eqb k beverage) eqn:E.
  - apply String.eqb_eq in E. subst k.
    rewrite stock_with_inventory_same. unfold stock. rewrite Hget. simpl. lia.
  - apply String.eqb_neq in E. rewrite stock_with_inventory_other by exact E. lia.
Qed.

(** C2. No call of [serve_beverage] makes any pose list longer or adds a
    key; and a serve that ends with the step-failure reply has popped one
    pose and not put it back: the stock of that beverage is the stock before
    the serve minus one. *)
Theorem serve_never_restocks (s : State) (beverage : string) :
  (forall k, stock k (self (final_state (serve_beverage beverage s))) <= stock k (self s))
  /\ dict_keys (inventory (self (final_state (serve_beverage beverage s))))
     = dict_keys (inventory (self s))
  /\ (forall e,
        outcome (serve_beverage beverage s) = Ok (error_serving_text (lower beverage) e) ->
        S (stock (lower beverage) (self (final_state (serve_beverage beverage s))))
        = stock (lower beverage) (self s)).
Proof.
  rewrite serve_beverage_self.
  split; [|split].
  - intro k.
    destruct (initialized (self s)); [|lia].
    destruct (dict_get (lower beverage) (inventory (self s))) as [[|target rest]|] eqn:Hget;
      try lia.
    now apply stock_after_pop with (target := target).
  - destruct (initialized (self s)); [|reflexivity].
    destruct (dict_get (lower beverage) (inventory (self s))) as [[|target rest]|] eqn:Hget;
      try reflexivity.
    cbn. apply dict_keys_set_present. congruence.
  - intros e Hout.
    unfold serve_beverage, bind, get, outcome in Hout. cbn in Hout.
    destruct (initialized (self s)); cbn in Hout; [|discriminate Hout].
    destruct (dict_get (lower beverage) (inventory (self s))) as [[|target rest]|] eqn:Hget;
      cbn in Hout; try discriminate Hout.
    rewrite stock_with_inventory_same. unfold stock. rewrite Hget. reflexivity.
Qed.

(** *** Serving when no robot call raises *)

Lemma no_faults_tail o names io names' io' :
  no_faults (mkWorld (None :: o) names io) -> no_faults (mkWorld o names' io').
Proof. unfold no_faults. cbn. intro H. now apply Forall_inv_tail in H. Qed.

(** With the robot connected and no call raising, a serve of a beverage in
    stock goes through. *)
Lemma serve_beverage_quiet (s : State) (beverage : string) (target : Pose) (rest : list Pose)
  (Hconn : connected (self s)) (Hquiet : no_faults (robot s))
  (Hget : dict_get (lower beverage) (inventory (self s)) = Some (target :: rest)) :
  outcome (serve_beverage beverage s) = Ok (served_text (lower beverage) (length rest))
  /\ events (serve_beverage beverage s)
     = success_events (lower beverage) (length rest) target (tcp (self s))
  /\ no_faults (robot (final_state (serve_beverage beverage s))).
Proof.
  destruct Hconn as (Hinit & Hmg & Hctl).
  destruct s as [[inv nova [ctl|] [mg|] tool ini] [o names io]];
    cbn in *; try congruence.
  subst ini.
  unfold serve_beverage, bind, get; cbn; rewrite Hget.
  do 10 (destruct o as [|[e|] o];
         [ repeat split; constructor
         | exfalso; inversion Hquiet; discriminate
         | apply no_faults_tail with (names' := names) (io' := io) in Hquiet ]).
  repeat split. exact Hquiet.
Qed.

(** On an initialised bartender the tool call is the serve, after one log
    line. *)
Lemma serve_drink_initialized (s : State) (beverage text : string)
  (Hinit : initialized (self s) = true)
  (Hout : outcome (serve_beverage beverage s) = Ok text) :
  outcome (serve_drink beverage s) = Ok text
  /\ final_state (serve_drink beverage s) = final_state (serve_beverage beverage s).
Proof.
  unfold serve_drink, handle_call_tool, bind, get, log, emit, get_beverage, try_except.
  cbn -[serve_beverage]. rewrite Hinit. cbn -[serve_beverage].
  unfold outcome, final_state in *.
  destruct (serve_beverage beverage s) as [[r s1] l]. cbn in *. subst r. now split.
Qed.

Lemma countdown_firstn (b : string) (k n : nat) :
  countdown b n k =
    firstn k (map (served_text b) (rev (seq 0 n)) ++ repeat (out_of_stock_text b) k)%list.
Proof.
  revert n. induction k as [|k IH]; intro n; [reflexivity|].
  destruct n as [|n].
  - cbn [countdown]. rewrite IH. reflexivity.
  - cbn [countdown]. rewrite IH.
    rewrite seq_S, rev_app_distr. cbn [rev app map firstn plus]. f_equal.
    rewrite !firstn_app. f_equal.
    rewrite !length_map, !length_rev, !length_seq.
    assert (forall m j (x : string), firstn j (repeat x m) = repeat x (min j m)) as Hrep.
    { intros m j x. revert j. induction m; intro j; destruct j; cbn; auto.
      f_equal. apply IHm. }
    rewrite !Hrep. f_equal. lia.
Qed.

(** One tool call under the running assumptions: the reply and the stock of
    every beverage after it. *)
Lemma serve_drink_step (s : State) (t : string)
  (Hconn : connected (self s)) (Hquiet : no_faults (robot s)) :
  exists reply,
    outcome (serve_drink t s) = Ok reply
    /\ connected (self (final_state (serve_drink t s)))
    /\ no_faults (robot (final_state (serve_drink t s)))
    /\ match dict_get (lower t) (inventory (self s)) with
       | None =>
           reply = unknown_beverage_text (lower t) (dict_keys (inventory (self s)))
           /\ inventory (self (final_state (serve_drink t s))) = inventory (self s)
       | Some [] =>
           reply = out_of_stock_text (lower t)
           /\ inventory (self (final_state (serve_drink t s))) = inventory (self s)
       | Some (_ :: rest) =>
           reply = served_text (lower t) (length rest)
           /\ inventory (self (final_state (serve_drink t s)))
              = dict_set (lower t) rest (inventory (self s))
       end.
Proof.
  pose proof (serve_beverage_self s t) as Hself.
  destruct Hconn as (Hinit & Hmg & Hctl). rewrite Hinit in Hself.
  destruct (dict_get (lower t) (inventory (self s))) as [[|target rest]|] eqn:Hget.
  - pose proof (serve_beverage_out_of_stock s t Hinit Hget) as Hrun.
    destruct (serve_drink_initialized s t Hinit (f_equal outcome Hrun)) as (Ho & Hs).
    rewrite Hs, Hrun. cbn. eexists. repeat split; try eassumption.
  - destruct (serve_beverage_quiet s t (conj Hinit (conj Hmg Hctl)) Hquiet Hget)
      as (Ho & _ & Hq).
    destruct (serve_drink_initialized s t Hinit Ho) as (Ho' & Hs).
    rewrite Hs, Hself. eexists. repeat split; try eassumption.
  - pose proof (serve_beverage_unknown s t Hinit Hget) as Hrun.
    destruct (serve_drink_initialized s t Hinit (f_equal outcome Hrun)) as (Ho & Hs).
    rewrite Hs, Hrun. cbn. eexists. repeat split; try eassumption.
Qed.

Lemma serve_drinks_countdown (tokens : list string) :
  forall (s : State) (beverage : string) (poses : list Pose),
    connected (self s) -> no_faults (robot s) ->
    dict_get beverage (inventory (self s)) = Some poses ->
    exists replies,
      outcome (serve_drinks tokens s) = Ok replies
      /\ length replies = length tokens
      /\ replies_for beverage tokens replies
         = countdown beverage (length poses) (calls_for beverage tokens)
      /\ stock beverage (self (final_state (serve_drinks tokens s)))
         = length poses - calls_for beverage tokens.
Proof.
  induction tokens as [|t tokens IH]; intros s beverage poses Hconn Hquiet Hstock.
  - exists []. cbn. unfold stock. rewrite Hstock. repeat split. lia.
  - destruct (serve_drink_step s t Hconn Hquiet) as (reply & Ho & Hc1 & Hq1 & Hcase).
    cbn [serve_drinks]. unfold bind.
    unfold outcome, final_state in *.
    destruct (serve_drink t s) as [[r s1] l1]. cbn [fst snd] in Ho, Hc1, Hq1, Hcase.
    subst r.
    assert (Hnext : exists poses1,
               dict_get beverage (inventory (self s1)) = Some poses1
               /\ (if String.eqb (lower t) beverage
                   then reply :: countdown beverage (length poses1) (calls_for beverage tokens)
                        = countdown beverage (length poses) (S (calls_for beverage tokens))
                        /\ length poses1 - calls_for beverage tokens
                           = length poses - S (calls_for beverage tokens)
                   else length poses1 = length poses)).
    { destruct (String.eqb (lower t) beverage) eqn:E.
      - apply String.eqb_eq in E. subst beverage. rewrite Hstock in Hcase.
        destruct poses as [|target rest]; destruct Hcase as (-> & Hinv); rewrite Hinv.
        + exists []. split; [exact Hstock|]. cbn [countdown length].
          split; [reflexivity|lia].
        + exists rest. split; [apply dict_get_set_same|]. cbn [countdown length].
          split; [reflexivity|lia].
      - apply String.eqb_neq in E.
        destruct (dict_get (lower t) (inventory (self s))) as [[|target rest]|];
          destruct Hcase as (_ & Hinv); rewrite Hinv;
          exists poses; (split; [|reflexivity]); try exact Hstock.
        rewrite dict_get_set_other by congruence. exact Hstock. }
    destruct Hnext as (poses1 & Hstock1 & Hrel).
    destruct (IH s1 beverage poses1 Hc1 Hq1 Hstock1) as (replies & Ho2 & Hlen & Hrep & Hfin).
    destruct (serve_drinks tokens s1) as [[r2 s2] l2]. cbn [fst snd] in Ho2, Hfin.
    subst r2.
    exists (reply :: replies). cbn [ret fst snd].
    unfold calls_for in *. cbn [filter replies_for length].
    destruct (String.eqb (lower t) beverage); cbn [length].
    + destruct Hrel as (Hcd & Hsub). repeat split; congruence.
    + repeat split; congruence.
Qed.

(** *** Initialisation and what the server can reach *)

(** From a bartender not yet initialised, with no call raising and a robot
    that names at least two tools, [initialize] returns and leaves the
    bartender connected, with the initial inventory and the second tool. *)
Lemma initialize_connects (b : RobotBartender) (w : World) (name : string)
  (Hnew : initialized b = false)
  (Hquiet : no_faults w)
  (Htcp : nth_error (tcp_names_reply w) 1 = Some name) :
  outcome (initialize (mkState b w)) = Ok tt
  /\ self (final_state (initialize (mkState b w)))
     = mkRobotBartender INITIAL_INVENTORY (Some Nova_object)
         (Some (Controller_object CONTROLLER_NAME)) (Some MotionGroup_object)
         (Some name) true
  /\ no_faults (robot (final_state (initialize (mkState b w)))).
Proof.
  destruct b as [inv nova ctl mg tool ini], w as [o names io]. cbn in *. subst ini.
  destruct names as [|n0 [|n1 names]]; try discriminate Htcp.
  injection Htcp as ->.
  unfold initialize, bind, get. cbn [self initialized].
  do 7 (destruct o as [|[e|] o];
        [ repeat split; constructor
        | exfalso; inversion Hquiet; discriminate
        | apply no_faults_tail with (names' := n0 :: name :: names) (io' := io) in Hquiet ]).
  repeat split. exact Hquiet.
Qed.

(** [initialize] sets the flag only after it has stored the controller and
    the motion group. *)
Lemma initialize_keeps_handles :
  preserves self handles_when_initialized initialize.
Proof.
  intros [[inv nova ctl mg tool ini] [o names io]] Hwf.
  destruct ini.
  - exact Hwf.
  - clear Hwf. unfold handles_when_initialized.
    destruct names as [|n0 [|n1 names]];
      do 7 (try (destruct o as [|[?|] o])); lazy;
      intro Hi; first [discriminate Hi | split; intro Hn; discriminate Hn].
Qed.

Lemma handles_with_inventory v b :
  handles_when_initialized b -> handles_when_initialized (with_inventory v b).
Proof. now unfold handles_when_initialized. Qed.

Lemma serve_beverage_keeps_handles beverage :
  preserves self handles_when_initialized (serve_beverage beverage).
Proof.
  intros s Hwf. rewrite serve_beverage_self.
  destruct (initialized (self s)); [|exact Hwf].
  destruct (dict_get (lower beverage) (inventory (self s))) as [[|target rest]|];
    first [exact Hwf | now apply handles_with_inventory].
Qed.

Lemma keeps_self_go_home : keeps self go_home.
Proof.
  unfold go_home. apply keeps_bind; [auto with keeps|]. intro s.
  destruct (negb (initialized (self s))); keeps_steps.
Qed.

(** No tool call breaks it. *)
Lemma handle_call_tool_keeps_handles name arguments :
  preserves self handles_when_initialized (handle_call_tool name arguments).
Proof.
  unfold handle_call_tool.
  apply preserves_bind; [apply preserves_of_keeps; auto with keeps|]. intros _.
  apply preserves_bind; [apply preserves_of_keeps; auto with keeps|]. intro s.
  apply preserves_bind.
  - destruct (negb (initialized (self s))); [|apply preserves_of_keeps; auto with keeps].
    apply preserves_try_except.
    + apply preserves_bind; [apply initialize_keeps_handles|].
      intro. apply preserves_of_keeps. auto with keeps.
    + intro e. apply preserves_of_keeps. keeps_steps.
  - intros [msg|]; [apply preserves_of_keeps; auto with keeps|].
    apply preserves_try_except; [|intro e; apply preserves_of_keeps; keeps_steps].
    destruct (String.eqb name "serve_drink"); [apply serve_beverage_keeps_handles|].
    destruct (String.eqb name "check_inventory"); [apply preserves_of_keeps; keeps_steps|].
    destruct (String.eqb name "go_home");
      apply preserves_of_keeps; [apply keeps_self_go_home | auto with keeps].
Qed.

(** Whenever the server's bartender says it is initialised, it is connected:
    this is the standing assumption of the theorems about serves. *)
Lemma reachable_connected (s : State) :
  reachable s -> initialized (self s) = true -> connected (self s).
Proof.
  intros Hr Hi.
  assert (Hwf : handles_when_initialized (self s)).
  { clear Hi. induction Hr as [w|s name arguments Hr IH].
    - intro Hi. discriminate Hi.
    - now apply handle_call_tool_keeps_handles. }
  destruct (Hwf Hi). now repeat split.
Qed.

(** Once the bartender is initialised no tool call makes a pose list longer:
    the inventory is only reset by [initialize], which then does nothing. *)
Lemma tool_calls_never_restock (name : string) (arguments : dict string) (s : State)
  (Hinit : initialized (self s) = true) :
  initialized (self (final_state (handle_call_tool name arguments s))) = true
  /\ forall k, stock k (self (final_state (handle_call_tool name arguments s)))
               <= stock k (self s).
Proof.
  set (P := fun b : RobotBartender =>
              initialized b = true /\ forall k, stock k b <= stock k (self s)).
  assert (Hkeeps : forall A (m : M State A), keeps self m -> preserves self P m)
    by (intros A m; apply preserves_of_keeps).
  assert (H : preserves self P (handle_call_tool name arguments)).
  { unfold handle_call_tool.
    apply preserves_bind; [apply Hkeeps; auto with keeps|]. intros _.
    apply preserves_bind; [apply Hkeeps; auto with keeps|]. intro s0.
    apply preserves_bind.
    - destruct (negb (initialized (self s0))); [|apply Hkeeps; auto with keeps].
      apply preserves_try_except; [|intro e; apply Hkeeps; keeps_steps].
      apply preserves_bind; [|intro; apply Hkeeps; auto with keeps].
      intros s1 [Hi Hle]. unfold initialize. rewrite bind_get, Hi. now split.
    - intros [msg|]; [apply Hkeeps; auto with keeps|].
      apply preserves_try_except; [|intro e; apply Hkeeps; keeps_steps].
      destruct (String.eqb name "serve_drink").
      + intros s1 [Hi Hle]. rewrite serve_beverage_self, Hi.
        destruct (dict_get (lower (get_beverage arguments)) (inventory (self s1)))
          as [[|target rest]|] eqn:Hget; try now split.
        split; [exact Hi|]. intro k.
        etransitivity; [apply stock_after_pop with (target := target); exact Hget|apply Hle].
      + destruct (String.eqb name "check_inventory"); [apply Hkeeps; keeps_steps|].
        destruct (String.eqb name "go_home");
          apply Hkeeps; [apply keeps_self_go_home | auto with keeps]. }
  apply (H s). split; [exact Hinit|]. intro k. lia.
Qed.

(** The tool call does not depend on the casing of the beverage either: the
    reply, the state it leaves and the robot calls are those of the
    lower-cased name (the first log line prints the argument as given). *)
Lemma serve_drink_any_case (s : State) (t : string) :
  outcome (serve_drink t s) = outcome (serve_drink (lower t) s)
  /\ final_state (serve_drink t s) = final_state (serve_drink (lower t) s)
  /\ calls_of (events (serve_drink t s)) = calls_of (events (serve_drink (lower t) s)).
Proof.
  unfold serve_drink, handle_call_tool.
  rewrite !bind_log_outcome, !bind_log_final_state, !bind_log_calls.
  assert (Hsame : forall s0 : State,
             serve_beverage (get_beverage [("beverage", t)]) s0
             = serve_beverage (get_beverage [("beverage", lower t)]) s0)
    by (intro s0; cbn; apply serve_beverage_lower).
  repeat split; [f_equal | f_equal | do 2 f_equal];
    (apply bind_ext; intros s0 s1; apply bind_ext; intros [msg|] s2;
     [reflexivity | apply try_except_ext; exact Hsame]).
Qed.

(** *** Serving whatever the robot does *)

(** A serve that popped a pose returns, and its reply is the success text or
    the step-failure text. *)
Lemma serve_beverage_replies (s : State) (beverage : string) (target : Pose)
  (rest : list Pose)
  (Hinit : initialized (self s) = true)
  (Hget : dict_get (lower beverage) (inventory (self s)) = Some (target :: rest)) :
  exists text,
    outcome (serve_beverage beverage s) = Ok text
    /\ (text = served_text (lower beverage) (length rest)
        \/ exists e, text = error_serving_text (lower beverage) e).
Proof.
  set (attempt := try_except (serve_beverage_try (lower beverage) target (length rest))
                             (serve_beverage_except (lower beverage))).
  assert (Hreturns : returns attempt).
  { apply returns_try_except. intro e. unfold serve_beverage_except.
    apply returns_bind; [apply returns_emit|]. intros _.
    apply returns_bind; [|intros _; apply returns_ret].
    apply returns_try_except. intro e'. apply returns_emit. }
  assert (Hyields : yields (fun text => text = served_text (lower beverage) (length rest)
                                        \/ exists e, text = error_serving_text (lower beverage) e)
                           attempt).
  { apply yields_try_except.
    - unfold serve_beverage_try. repeat (apply yields_bind; intro). apply yields_ret. now left.
    - intro e. unfold serve_beverage_except. repeat (apply yields_bind; intro).
      apply yields_ret. right. now exists e. }
  unfold serve_beverage. rewrite bind_get, Hinit. cbn [negb]. rewrite Hget.
  erewrite bind_unit_l by reflexivity. fold attempt.
  destruct (Hreturns (mkState (with_inventory (dict_set (lower beverage) rest
                                                        (inventory (self s))) (self s))
                              (robot s))) as [text Ho].
  exists text. split; [exact Ho|]. exact (Hyields _ _ Ho).
Qed.

(** One tool call on an initialised bartender, whatever the robot does. *)
Lemma serve_drink_step_any (s : State) (t : string)
  (Hinit : initialized (self s) = true) :
  exists reply,
    outcome (serve_drink t s) = Ok reply
    /\ initialized (self (final_state (serve_drink t s))) = true
    /\ match dict_get (lower t) (inventory (self s)) with
       | None =>
           reply = unknown_beverage_text (lower t) (dict_keys (inventory (self s)))
           /\ inventory (self (final_state (serve_drink t s))) = inventory (self s)
       | Some [] =>
           reply = out_of_stock_text (lower t)
           /\ inventory (self (final_state (serve_drink t s))) = inventory (self s)
       | Some (_ :: rest) =>
           agrees_up_to_failure (lower t) (served_text (lower t) (length rest)) reply
           /\ inventory (self (final_state (serve_drink t s)))
              = dict_set (lower t) rest (inventory (self s))
       end.
Proof.
  pose proof (serve_beverage_self s t) as Hself. rewrite Hinit in Hself.
  destruct (dict_get (lower t) (inventory (self s))) as [[|target rest]|] eqn:Hget.
  - pose proof (serve_beverage_out_of_stock s t Hinit Hget) as Hrun.
    destruct (serve_drink_initialized s t Hinit (f_equal outcome Hrun)) as (Ho & Hs).
    rewrite Hs, Hrun. cbn. eexists. repeat split; try eassumption.
  - destruct (serve_beverage_replies s t Hinit Hget) as (text & Ho & Htext).
    destruct (serve_drink_initialized s t Hinit Ho) as (Ho' & Hs).
    rewrite Hs, Hself. exists text. repeat split; try assumption.
    destruct Htext as [->|[e ->]]; [now left|right].
    split; [reflexivity|now exists e].
  - pose proof (serve_beverage_unknown s t Hinit Hget) as Hrun.
    destruct (serve_drink_initialized s t Hinit (f_equal outcome Hrun)) as (Ho & Hs).
    rewrite Hs, Hrun. cbn. eexists. repeat split; try eassumption.
Qed.

(** However many robot calls raise, every call that finds a pose consumes
    it: the calls for a beverage with [n] poses are answered by a serve or a
    step failure for the first [n], with out of stock from then on, and the
    stock is [n] minus the number of calls. *)
Lemma stock_countdown_whatever_the_robot (tokens : list string) :
  forall (s : State) (beverage : string) (poses : list Pose),
    initialized (self s) = true ->
    dict_get beverage (inventory (self s)) = Some poses ->
    exists replies,
      outcome (serve_drinks tokens s) = Ok replies
      /\ length replies = length tokens
      /\ Forall2 (agrees_up_to_failure beverage)
           (countdown beverage (length poses) (calls_for beverage tokens))
           (replies_for beverage tokens replies)
      /\ stock beverage (self (final_state (serve_drinks tokens s)))
         = length poses - calls_for beverage tokens.
Proof.
  induction tokens as [|t tokens IH]; intros s beverage poses Hinit Hstock.
  - exists []. cbn. unfold stock. rewrite Hstock. repeat split; [constructor|lia].
  - destruct (serve_drink_step_any s t Hinit) as (reply & Ho & Hi1 & Hcase).
    cbn [serve_drinks]. unfold bind.
    unfold outcome, final_state in *.
    destruct (serve_drink t s) as [[r s1] l1]. cbn [fst snd] in Ho, Hi1, Hcase.
    subst r.
    assert (Hnext : exists poses1,
               dict_get beverage (inventory (self s1)) = Some poses1
               /\ (if String.eqb (lower t) beverage
                   then exists expected,
                        countdown beverage (length poses) (S (calls_for beverage tokens))
                        = expected
                          :: countdown beverage (length poses1) (calls_for beverage tokens)
                        /\ agrees_up_to_failure beverage expected reply
                        /\ length poses1 - calls_for beverage tokens
                           = length poses - S (calls_for beverage tokens)
                   else length poses1 = length poses)).
    { destruct (String.eqb (lower t) beverage) eqn:E.
      - apply String.eqb_eq in E. subst beverage. rewrite Hstock in Hcase.
        destruct poses as [|target rest]; destruct Hcase as (Hreply & Hinv); rewrite Hinv.
        + exists []. split; [exact Hstock|]. eexists. cbn [countdown length].
          split; [reflexivity|]. split; [now left|lia].
        + exists rest. split; [apply dict_get_set_same|]. eexists. cbn [countdown length].
          split; [reflexivity|]. split; [exact Hreply|lia].
      - apply String.eqb_neq in E.
        destruct (dict_get (lower t) (inventory (self s))) as [[|target rest]|];
          destruct Hcase as (_ & Hinv); rewrite Hinv;
          exists poses; (split; [|reflexivity]); try exact Hstock.
        rewrite dict_get_set_other by congruence. exact Hstock. }
    destruct Hnext as (poses1 & Hstock1 & Hrel).
    destruct (IH s1 beverage poses1 Hi1 Hstock1) as (replies & Ho2 & Hlen & Hrep & Hfin).
    destruct (serve_drinks tokens s1) as [[r2 s2] l2]. cbn [fst snd] in Ho2, Hfin.
    subst r2.
    exists (reply :: replies). cbn [ret fst snd].
    unfold calls_for in *. cbn [filter replies_for length].
    destruct (String.eqb (lower t) beverage); cbn [length].
    + destruct Hrel as (expected & Hcd & Hagree & Hsub). rewrite Hcd.
      repeat split; [congruence|now constructor|congruence].
    + repeat split; congruence.
Qed.

(** C1. A beverage with [n] poses in stock, over any run of [serve_drink]
    calls on an initialised, connected bartender (calls for other beverages
    may come in between, in any casing).  Every call returns.  When no robot
    call raises, the calls for this beverage are answered, in order, with
    success and [n-1], [n-2], ..., [0] left, and from the [(n+1)]-th on with
    the out-of-stock text.  Whatever the robot does, the replies are these
    up to a step failure in place of a success, so the [(n+1)]-th and every
    later call is out of stock; and the stock ends at [n] minus the number of
    calls, which is 0 from the [n]-th call on. *)
Theorem stock_countdown (s : State) (beverage : string) (poses : list Pose)
  (tokens : list string)
  (Hconn : connected (self s))
  (Hstock : dict_get beverage (inventory (self s)) = Some poses) :
  let expected :=
    firstn (calls_for beverage tokens)
      (map (served_text beverage) (rev (seq 0 (length poses)))
       ++ repeat (out_of_stock_text beverage) (calls_for beverage tokens))%list in
  exists replies,
    outcome (serve_drinks tokens s) = Ok replies
    /\ length replies = length tokens
    /\ (no_faults (robot s) -> replies_for beverage tokens replies = expected)
    /\ Forall2 (agrees_up_to_failure beverage) expected (replies_for beverage tokens replies)
    /\ stock beverage (self (final_state (serve_drinks tokens s)))
       = length poses - calls_for beverage tokens.
Proof.
  intro expected. subst expected. rewrite <- countdown_firstn.
  destruct Hconn as (Hinit & Hmg & Hctl).
  destruct (stock_countdown_whatever_the_robot tokens s beverage Hinit Hstock)
    as (replies & Ho & Hlen & Hagree & Hfin).
  exists replies. repeat split; try assumption.
  intro Hquiet.
  destruct (serve_drinks_countdown tokens s beverage
              (conj Hinit (conj Hmg Hctl)) Hquiet Hstock)
    as (replies' & Ho' & _ & Hrep & _).
  rewrite Ho in Ho'. injection Ho' as <-. exact Hrep.
Qed.

(** *** [check_inventory] *)

(** Before any serve the three beverages are listed in alphabetical order
    with their counts, all available; after coke was served twice it shows 0
    and the failure marker, the others as before. *)
Example check_inventory_before_and_after :
  check_inventory ready_bartender
  = join newline [ "📦 Current Inventory:";
                   "  ✅ Coke: 2 available";
                   "  ✅ Fanta: 1 available";
                   "  ✅ Redbull: 2 available" ]
  /\ check_inventory
       (self (final_state (serve_drinks ["coke"; "coke"] (mkState ready_bartender calm_robot))))
     = join newline [ "📦 Current Inventory:";
                      "  ❌ Coke: 0 available";
                      "  ✅ Fanta: 1 available";
                      "  ✅ Redbull: 2 available" ]
  /\ check_inventory __init__ = "📦 Inventory is empty".
Proof. repeat split. Qed.

(** *** The theorems at work *)

Lemma connected_ready : connected ready_bartender.
Proof. repeat split; discriminate. Qed.

Lemma initialize_when_initialized_witness :
  initialized (self (mkState ready_bartender calm_robot)) = true
  /\ initialize (mkState ready_bartender calm_robot)
     = (Ok tt, mkState ready_bartender calm_robot,
        [ELog WARNING "Robot already initialized"]).
Proof.
  split; [reflexivity|].
  apply (initialize_when_initialized (mkState ready_bartender calm_robot)). reflexivity.
Defined.

Lemma serve_rejects_without_effect_witness :
  dict_get (lower "Sprite") (inventory ready_bartender) = None
  /\ exists text,
       serve_beverage "Sprite" (mkState ready_bartender calm_robot)
       = (Ok text, mkState ready_bartender calm_robot, [])
       /\ is_failure text = true.
Proof.
  split; [reflexivity|].
  destruct (serve_rejects_without_effect (mkState ready_bartender calm_robot) "Sprite")
    as (text & Hrun & Hfail & _).
  - left. reflexivity.
  - exists text. split; assumption.
Defined.

Lemma sting_unknown_in_any_case_witness :
  lower "STING" = "sting"
  /\ serve_beverage "STING" (mkState ready_bartender calm_robot)
     = (Ok (unknown_beverage_text "sting" ["coke"; "redbull"; "fanta"]),
        mkState ready_bartender calm_robot, [])
  /\ serve_beverage "STING" (mkState ready_bartender calm_robot)
     = serve_beverage "sting" (mkState ready_bartender calm_robot).
Proof.
  split; [reflexivity|].
  destruct (sting_unknown_in_any_case (mkState ready_bartender calm_robot) "STING")
    as (Hreply & Hsame & _); try reflexivity.
  split; assumption.
Defined.

Lemma serve_success_pipeline_witness :
  is_success (served_text "fanta" 0) = true
  /\ events (serve_beverage "Fanta" (mkState ready_bartender calm_robot))
     = success_events "fanta" 0 FANTA_0 (Some "Gripper").
Proof.
  split; [reflexivity|].
  destruct (@serve_success_pipeline
              (mkState ready_bartender calm_robot)
              (final_state (serve_beverage "Fanta" (mkState ready_bartender calm_robot)))
              "Fanta" (served_text "fanta" 0)
              (events (serve_beverage "Fanta" (mkState ready_bartender calm_robot))))
    as (target & rest & Hget & _ & Hevs).
  - reflexivity.
  - reflexivity.
  - cbn in Hget. injection Hget as <- <-. exact Hevs.
Defined.

Lemma serve_failure_recovers_once_witness :
  nth_error (pipeline_calls COKE_0 (Some "Gripper")) 3 = Some (CWrite "tool_out[0]" true)
  /\ outcome (serve_beverage "Coke"
                (mkState ready_bartender
                   (mkWorld [None; None; None; Some "gripper fault"; Some "no path"]
                            ["Flange"; "Gripper"] (false, false))))
     = Ok (error_serving_text "coke" "gripper fault").
Proof.
  split; [reflexivity|].
  apply (@serve_failure_recovers_once
           (mkState ready_bartender
              (mkWorld [None; None; None; Some "gripper fault"; Some "no path"]
                       ["Flange"; "Gripper"] (false, false)))
           "Coke" COKE_0 [COKE_1] 3 (CWrite "tool_out[0]" true) "gripper fault"
           [Some "no path"]);
    try reflexivity; discriminate.
Defined.

Lemma stock_countdown_witness :
  connected ready_bartender
  /\ no_faults calm_robot
  /\ exists replies,
       outcome (serve_drinks ["coke"; "fanta"; "COKE"; "Coke"; "coke"]
                             (mkState ready_bartender calm_robot)) = Ok replies
       /\ replies_for "coke" ["coke"; "fanta"; "COKE"; "Coke"; "coke"] replies
          = [ served_text "coke" 1; served_text "coke" 0;
              out_of_stock_text "coke"; out_of_stock_text "coke" ]
       /\ stock "coke"
            (self (final_state (serve_drinks ["coke"; "fanta"; "COKE"; "Coke"; "coke"]
                                             (mkState ready_bartender calm_robot)))) = 0.
Proof.
  split; [exact connected_ready|]. split; [constructor|].
  destruct (@stock_countdown (mkState ready_bartender calm_robot) "coke" [COKE_0; COKE_1]
              ["coke"; "fanta"; "COKE"; "Coke"; "coke"])
    as (replies & Hout & _ & Hfor & _ & Hfin).
  - exact connected_ready.
  - reflexivity.
  - exists replies. split; [exact Hout|]. split; [|exact Hfin].
    apply Hfor. constructor.
Defined.

(** The scenario of the specification, from a new bartender: the first call
    initialises the robot, then coke is served twice and is out of stock. *)
Example coke_twice_then_out_of_stock :
  outcome (serve_drinks ["coke"; "coke"; "coke"] (mkState __init__ calm_robot))
  = Ok [ "✅ Successfully served coke! (1 left in stock)";
         "✅ Successfully served coke! (0 left in stock)";
         "❌ Sorry, coke is out of stock!" ]
  /\ self (final_state (serve_drink "coke" (mkState __init__ calm_robot)))
     = with_inventory (dict_set "coke" [COKE_1] INITIAL_INVENTORY) ready_bartender.
Proof. split; reflexivity. Qed.

(** A serve whose pick-up Move raises: the reply is the failure, and the
    pose it popped is gone (stock 2 before, 1 after). *)
Example failed_serve_consumes_the_pose :
  outcome (serve_beverage "coke"
             (mkState ready_bartender
                (mkWorld [Some "no trajectory found"] ["Flange"; "Gripper"] (false, false))))
  = Ok (error_serving_text "coke" "no trajectory found")
  /\ stock "coke" ready_bartender = 2
  /\ stock "coke"
       (self (final_state
          (serve_beverage "coke"
             (mkState ready_bartender
                (mkWorld [Some "no trajectory found"] ["Flange"; "Gripper"] (false, false))))))
     = 1.
Proof. repeat split. Qed.

(** *** The gripper lines *)

(** In [mcp_bartender.py] the grip and the release each lower one line
    before they raise the other: from lines that are not both high a serve
    never makes both high, whatever the robot does. *)
Lemma serve_never_asserts_both (s : State) (beverage : string)
  (Hprior : both_asserted (tool_out (robot s)) = false) :
  Forall (fun io => both_asserted io = false)
         (tool_out_history (tool_out (robot s)) (events (serve_beverage beverage s))).
Proof.
  destruct s as [[inv nova ctl mg tool ini] [o names [a b]]].
  unfold serve_beverage, bind, get. cbn in *.
  destruct ini; cbn; [|constructor].
  destruct (dict_get (lower beverage) inv) as [[|target rest]|]; cbn; try constructor.
  unfold try_except, serve_beverage_try, serve_beverage_except, plan, execute, write,
    bind, get, robot_call, log, sleep, emit, ret, raise, try_except.
  cbn.
  destruct a, b; try discriminate Hprior;
    destruct mg, ctl; cbn; repeat next_call; repeat constructor.
Qed.

Lemma serve_never_asserts_both_witness :
  both_asserted (true, false) = false
  /\ Forall (fun io => both_asserted io = false)
       (tool_out_history (true, false)
          (events (serve_beverage "coke"
             (mkState ready_bartender
                (mkWorld [None; None; None; Some "gripper fault"]
                         ["Flange"; "Gripper"] (true, false)))))).
Proof.
  split; [reflexivity|].
  apply (@serve_never_asserts_both
           (mkState ready_bartender
              (mkWorld [None; None; None; Some "gripper fault"]
                       ["Flange"; "Gripper"] (true, false))) "coke").
  reflexivity.
Defined.

Lemma initialize_connects_witness :
  initialized __init__ = false
  /\ no_faults calm_robot
  /\ nth_error (tcp_names_reply calm_robot) 1 = Some "Gripper"
  /\ self (final_state (initialize (mkState __init__ calm_robot))) = ready_bartender.
Proof.
  split; [reflexivity|]. split; [constructor|]. split; [reflexivity|].
  destruct (@initialize_connects __init__ calm_robot "Gripper") as (_ & Hself & _).
  - reflexivity.
  - constructor.
  - reflexivity.
  - exact Hself.
Defined.

Lemma tool_calls_never_restock_witness :
  initialized ready_bartender = true
  /\ forall k,
       stock k (self (final_state (handle_call_tool "serve_drink" [("beverage", "fanta")]
                                                    (mkState ready_bartender calm_robot))))
       <= stock k ready_bartender.
Proof.
  split; [reflexivity|].
  apply (@tool_calls_never_restock "serve_drink" [("beverage", "fanta")]
           (mkState ready_bartender calm_robot)).
  reflexivity.
Defined.

Lemma reachable_connected_witness :
  initialized (self (final_state (handle_call_tool "go_home" [] (mkState __init__ calm_robot))))
  = true
  /\ connected (self (final_state (handle_call_tool "go_home" [] (mkState __init__ calm_robot)))).
Proof.
  split; [reflexivity|].
  apply (@reachable_connected
           (final_state (handle_call_tool "go_home" [] (mkState __init__ calm_robot)))).
  - apply reachable_call. apply reachable_new.
  - reflexivity.
Defined.

End McpFacts.

(* ================================================================== *)
(** ** [start_here_voice.py] *)

Module VoiceFacts.
Import start_here_voice.

(** *** The queue discipline, step by step *)

Lemma fifo_of_frame {A} (m : M System A) : queue_frame m -> fifo m.
Proof.
  intros H s. destruct (H s) as (Hq & Hp & Hg). rewrite Hq, Hp, Hg.
  now rewrite app_nil_r.
Qed.

Lemma fifo_bind {A B} (m : M System A) (f : A -> M System B) :
  fifo m -> (forall a, fifo (f a)) -> fifo (bind m f).
Proof.
  intros Hm Hf s. specialize (Hm s).
  unfold bind, events, final_state in *.
  destruct (m s) as [[[a|e] s1] l1]; cbn in *; [|exact Hm].
  specialize (Hf a s1). unfold events, final_state in Hf.
  destruct (f a s1) as [[r s2] l2]. cbn in *.
  rewrite puts_of_app, gets_of_app, app_assoc, Hm, <- !app_assoc. now f_equal.
Qed.

Lemma fifo_try_except {A} (body : M System A) (handler : string -> M System A) :
  fifo body -> (forall e, fifo (handler e)) -> fifo (try_except body handler).
Proof.
  intros Hb Hh s. specialize (Hb s).
  unfold try_except, events, final_state in *.
  destruct (body s) as [[[a|e] s1] l1]; cbn in *; [exact Hb|].
  specialize (Hh e s1). unfold events, final_state in Hh.
  destruct (handler e s1) as [[r s2] l2]. cbn in *.
  rewrite puts_of_app, gets_of_app, app_assoc, Hb, <- !app_assoc. now f_equal.
Qed.

Lemma queue_frame_bind {A B} (m : M System A) (f : A -> M System B) :
  queue_frame m -> (forall a, queue_frame (f a)) -> queue_frame (bind m f).
Proof.
  intros Hm Hf s. specialize (Hm s).
  unfold bind, events, final_state in *.
  destruct (m s) as [[[a|e] s1] l1]; cbn in *; [|exact Hm].
  specialize (Hf a s1). unfold events, final_state in Hf.
  destruct (f a s1) as [[r s2] l2]. cbn in *.
  destruct Hm as (Hq & Hp & Hg), Hf as (Hq' & Hp' & Hg').
  rewrite puts_of_app, gets_of_app, Hp, Hg, Hp', Hg'. repeat split. congruence.
Qed.

Lemma queue_frame_try_except {A} (body : M System A) (handler : string -> M System A) :
  queue_frame body -> (forall e, queue_frame (handler e)) ->
  queue_frame (try_except body handler).
Proof.
  intros Hb Hh s. specialize (Hb s).
  unfold try_except, events, final_state in *.
  destruct (body s) as [[[a|e] s1] l1]; cbn in *; [exact Hb|].
  specialize (Hh e s1). unfold events, final_state in Hh.
  destruct (handler e s1) as [[r s2] l2]. cbn in *.
  destruct Hb as (Hq & Hp & Hg), Hh as (Hq' & Hp' & Hg').
  rewrite puts_of_app, gets_of_app, Hp, Hg, Hp', Hg'. repeat split. congruence.
Qed.

Lemma queue_frame_ret {A} (a : A) : queue_frame (ret a).
Proof. intro s. now repeat split. Qed.
Lemma queue_frame_raise {A} e : queue_frame (raise e : M System A).
Proof. intro s. now repeat split. Qed.
Lemma queue_frame_get : queue_frame get.
Proof. intro s. now repeat split. Qed.
Lemma queue_frame_log lvl msg : queue_frame (log lvl msg).
Proof. intro s. now repeat split. Qed.
Lemma queue_frame_sleep d : queue_frame (sleep d).
Proof. intro s. now repeat split. Qed.
Lemma queue_frame_robot_call c : queue_frame (robot_call c).
Proof. intro s. unfold robot_call. destruct (hd None _); now repeat split. Qed.
Lemma queue_frame_set_inventory v : queue_frame (set_inventory v).
Proof. intro s. now repeat split. Qed.
Lemma queue_frame_set_state v : queue_frame (set_state v).
Proof. intro s. now repeat split. Qed.
Lemma queue_frame_set_running v : queue_frame (set_running v).
Proof. intro s. now repeat split. Qed.

Create HintDb queue.
#[local] Hint Resolve queue_frame_ret queue_frame_raise queue_frame_get queue_frame_log
  queue_frame_sleep queue_frame_robot_call queue_frame_set_inventory
  queue_frame_set_state queue_frame_set_running : queue.

Ltac queue_frame_steps :=
  repeat first [ solve [auto with queue]
               | apply queue_frame_bind; [|intro]
               | apply queue_frame_try_except; [|intro] ].

Lemma queue_frame_write key value : queue_frame (write key value).
Proof. apply queue_frame_robot_call. Qed.
Lemma queue_frame_plan actions tcp : queue_frame (plan actions tcp).
Proof. unfold plan. queue_frame_steps. Qed.
Lemma queue_frame_execute traj tcp actions : queue_frame (execute traj tcp actions).
Proof. apply queue_frame_robot_call. Qed.

#[local] Hint Resolve queue_frame_write queue_frame_plan queue_frame_execute : queue.

Lemma queue_frame_initialize_grippers : queue_frame initialize_grippers.
Proof. unfold initialize_grippers. queue_frame_steps. Qed.
Lemma queue_frame_close_grippers : queue_frame close_grippers.
Proof. unfold close_grippers. queue_frame_steps. Qed.
Lemma queue_frame_open_grippers : queue_frame open_grippers.
Proof. unfold open_grippers. queue_frame_steps. Qed.

#[local] Hint Resolve queue_frame_initialize_grippers queue_frame_close_grippers
  queue_frame_open_grippers : queue.

(** The control loop's serve never touches the queue. *)
Lemma queue_frame_serve_beverage beverage tcp : queue_frame (serve_beverage beverage tcp).
Proof.
  unfold serve_beverage. apply queue_frame_bind; [auto with queue|]. intro s.
  destruct (dict_get beverage (inventory s)) as [[|target rest]|]; queue_frame_steps.
Qed.

Lemma fifo_queue_put token : fifo (queue_put token).
Proof. intro s. cbn. reflexivity. Qed.

Lemma fifo_queue_get : fifo queue_get.
Proof.
  intro s. unfold queue_get, events, final_state.
  destruct (command_queue s) as [|t rest] eqn:E; cbn; rewrite ?E, ?app_nil_r; reflexivity.
Qed.

#[local] Hint Resolve fifo_of_frame queue_frame_serve_beverage : queue.

Ltac fifo_steps :=
  repeat first [ solve [auto with queue]
               | apply fifo_queue_put
               | apply fifo_queue_get
               | apply fifo_bind; [|intro]
               | apply fifo_try_except; [|intro] ].

Lemma fifo_listen_loop_body f : fifo (_listen_loop_body f).
Proof.
  destruct f as [k fin inf|e]; unfold _listen_loop_body; [|fifo_steps].
  apply fifo_bind; [fifo_steps|]. intro s.
  destruct (state (listener s)).
  - destruct (0 <=? k)%Z; fifo_steps.
  - destruct fin; [|fifo_steps].
    apply fifo_bind; [|intro; fifo_steps].
    destruct (is_understood inf); [|fifo_steps].
    apply fifo_bind; [fifo_steps|]. intro.
    destruct (dict_get "beverage" (slots inf)); fifo_steps.
Qed.

Lemma fifo_listen_loop frames : fifo (_listen_loop frames).
Proof.
  unfold _listen_loop. apply fifo_try_except; [|intro; fifo_steps].
  induction frames as [|f frames IH]; cbn [_listen_loop_while]; [fifo_steps|].
  apply fifo_bind; [fifo_steps|]. intro s.
  destruct (running (listener s)); [|fifo_steps].
  apply fifo_bind; [apply fifo_listen_loop_body | intro; exact IH].
Qed.

Lemma fifo_voice_bartender_body tcp : fifo (voice_bartender_body tcp).
Proof. unfold voice_bartender_body. fifo_steps. Qed.

Lemma fifo_step tcp st : fifo (step tcp st).
Proof.
  destruct st as [f|]; cbn [step]; [|apply fifo_voice_bartender_body].
  apply fifo_bind; [fifo_steps|]. intro s.
  destruct (running (listener s)); [apply fifo_listen_loop | fifo_steps].
Qed.

Lemma fifo_run tcp steps : fifo (run tcp steps).
Proof.
  induction steps as [|st steps IH]; cbn [run]; [fifo_steps|].
  apply fifo_bind; [apply fifo_step | intro; exact IH].
Qed.

(** *** Neither loop body lets an exception out *)

Lemma returns_log lvl msg : returns (log lvl msg : M System unit).
Proof. intro s. now exists tt. Qed.
Lemma returns_sleep d : returns (sleep d : M System unit).
Proof. intro s. now exists tt. Qed.
Lemma returns_set_running v : returns (set_running v).
Proof. intro s. now exists tt. Qed.
Lemma returns_set_inventory v : returns (set_inventory v).
Proof. intro s. now exists tt. Qed.

#[local] Hint Resolve returns_log returns_sleep returns_set_running
  returns_set_inventory : returns.

Ltac returns_steps :=
  repeat first [ solve [auto with returns]
               | apply returns_try_except; intro
               | apply returns_bind; [|intro] ].

Lemma returns_serve_beverage beverage tcp : returns (serve_beverage beverage tcp).
Proof.
  unfold serve_beverage. apply returns_bind; [auto with returns|]. intro s.
  destruct (dict_get beverage (inventory s)) as [[|target rest]|]; returns_steps.
Qed.

Lemma returns_voice_bartender_body tcp : returns (voice_bartender_body tcp).
Proof. unfold voice_bartender_body. returns_steps. Qed.

Lemma returns_listen_loop frames : returns (_listen_loop frames).
Proof. unfold _listen_loop. returns_steps. Qed.

Lemma returns_step tcp st : returns (step tcp st).
Proof.
  destruct st as [f|]; cbn [step]; [|apply returns_voice_bartender_body].
  apply returns_bind; [auto with returns|]. intro s.
  destruct (running (listener s)); [apply returns_listen_loop | auto with returns].
Qed.

Lemma returns_run tcp steps : returns (run tcp steps).
Proof.
  induction steps as [|st steps IH]; cbn [run]; [auto with returns|].
  apply returns_bind; [apply returns_step | intro; exact IH].
Qed.

(** *** One poll of a queue that holds a token *)

(** The control loop takes the oldest token and serves that very token at
    once; nothing else happens in the iteration. *)
Lemma poll_serves_head (tcp : string) (s : System) (t : string) (rest : list string)
  (Hq : command_queue s = t :: rest) :
  let s1 := mkSystem (listener s) rest (inventory s) (robot s) in
  voice_bartender_body tcp s =
    (Ok tt,
     final_state (serve_beverage t tcp s1),
     EGet t
     :: ELog INFO (newline ++ rule)
     :: ELog INFO ("Processing order: " ++ t)
     :: ELog INFO (rule ++ newline)
     :: events (serve_beverage t tcp s1)).
Proof.
  intro s1. unfold voice_bartender_body.
  rewrite try_except_bind_ok with (s1 := s1) (a := t) (l1 := [EGet t])
    by (unfold queue_get; now rewrite Hq).
  destruct (returns_serve_beverage t tcp s1) as [b Hb].
  unfold try_except, bind, log, emit, ret, outcome, final_state, events in *.
  cbn [fst snd app]. destruct (serve_beverage t tcp s1) as [[r s2] l2]. cbn in Hb. subst r.
  cbn. now rewrite app_nil_r.
Qed.

Lemma poll_pops (tcp : string) (s : System) (t : string) (rest : list string)
  (Hq : command_queue s = t :: rest) :
  outcome (voice_bartender_body tcp s) = Ok tt
  /\ command_queue (final_state (voice_bartender_body tcp s)) = rest
  /\ gets_of (events (voice_bartender_body tcp s)) = [t]
  /\ puts_of (events (voice_bartender_body tcp s)) = [].
Proof.
  rewrite (poll_serves_head tcp s Hq).
  destruct (queue_frame_serve_beverage t tcp
              (mkSystem (listener s) rest (inventory s) (robot s))) as (Hc & Hp & Hg).
  unfold outcome, final_state, events in *. cbn [fst snd gets_of puts_of].
  rewrite Hc, Hp, Hg. now repeat split.
Qed.

(** Polling as often as tokens are pending empties the queue, in order. *)
Lemma polls_drain (tcp : string) (pending : list string) :
  forall s, command_queue s = pending ->
    outcome (run tcp (repeat Poll (length pending)) s) = Ok tt
    /\ command_queue (final_state (run tcp (repeat Poll (length pending)) s)) = []
    /\ gets_of (events (run tcp (repeat Poll (length pending)) s)) = pending
    /\ puts_of (events (run tcp (repeat Poll (length pending)) s)) = [].
Proof.
  induction pending as [|t rest IH]; intros s Hq.
  - cbn. now repeat split.
  - destruct (poll_pops tcp s Hq) as (Ho & Hc & Hg & Hp).
    cbn [length repeat run step]. unfold bind, outcome, final_state, events in *.
    destruct (voice_bartender_body tcp s) as [[r s1] l1]. cbn [fst snd] in *. subst r.
    destruct (IH s1 Hc) as (Ho2 & Hc2 & Hg2 & Hp2).
    destruct (run tcp (repeat Poll (length rest)) s1) as [[r2 s2] l2]. cbn [fst snd] in *.
    rewrite gets_of_app, puts_of_app, Hg, Hp, Hg2, Hp2. now repeat split.
Qed.

Lemma run_app (tcp : string) (a b : list Step) (s : System) :
  run tcp (a ++ b) s = bind (run tcp a) (fun _ => run tcp b) s.
Proof.
  revert s. induction a as [|st a IH]; intro s; cbn [app run].
  - now rewrite bind_ret_l.
  - rewrite bind_assoc. apply bind_ext. intros _ s'. apply IH.
Qed.

(** C5. Whatever the interleaving of listener frames and control-loop
    polls: the tokens taken from the queue, followed by those still in it,
    are the tokens put, in the order they were put, with nothing dropped,
    merged or reordered; every token taken is served at once; and when the
    control loop has polled once more for every token still pending it has
    received exactly the tokens sent, in exactly that order. *)
Theorem command_queue_fifo (tcp : string) (steps : list Step) (s : System) :
  (command_queue s ++ puts_of (events (run tcp steps s)))%list
  = (gets_of (events (run tcp steps s)) ++ command_queue (final_state (run tcp steps s)))%list
  /\ (forall s0 t rest, command_queue s0 = t :: rest ->
        let s1 := mkSystem (listener s0) rest (inventory s0) (robot s0) in
        events (voice_bartender_body tcp s0)
        = EGet t
          :: ELog INFO (newline ++ rule)
          :: ELog INFO ("Processing order: " ++ t)
          :: ELog INFO (rule ++ newline)
          :: events (serve_beverage t tcp s1))
  /\ (let pending := command_queue (final_state (run tcp steps s)) in
      let drained := run tcp (steps ++ repeat Poll (length pending)) s in
      outcome drained = Ok tt
      /\ gets_of (events drained) = (command_queue s ++ puts_of (events drained))%list
      /\ puts_of (events drained) = puts_of (events (run tcp steps s))
      /\ command_queue (final_state drained) = []).
Proof.
  split; [apply fifo_run|]. split.
  - intros s0 t rest Hq. cbn zeta. now rewrite (poll_serves_head tcp s0 Hq).
  - cbn zeta. rewrite run_app.
    pose proof (fifo_run tcp steps s) as Hfifo.
    destruct (returns_run tcp steps s) as [[] Hret].
    unfold bind, outcome, final_state, events in *.
    destruct (run tcp steps s) as [[r s1] l1]. cbn [fst snd] in *. subst r.
    destruct (@polls_drain tcp (command_queue s1) s1 eq_refl) as (Ho & Hc & Hg & Hp).
    unfold outcome, final_state, events in *.
    destruct (run tcp (repeat Poll (length (command_queue s1))) s1) as [[r2 s2] l2].
    cbn [fst snd] in *.
    rewrite gets_of_app, puts_of_app, Hg, Hp, app_nil_r. repeat split; auto.
Qed.

(** *** The recognition state machine *)

(** C8. A finalized frame in state [command] queues the lower-cased
    beverage slot exactly when the inference is understood and has a
    ["beverage"] slot, queues nothing otherwise, and in every case leaves the
    listener in state [wake]; a frame that is not finalized changes nothing
    and emits nothing. *)
Theorem finalized_frame_requests_and_resets (s : System) (keyword_index : Z)
  (inference : Inference)
  (Hstate : state (listener s) = command) :
  let done := _listen_loop_body (Heard keyword_index true inference) s in
  outcome done = Ok tt
  /\ puts_of (events done) = requested inference
  /\ final_state done =
       mkSystem (mkVoiceListener wake (running (listener s)))
                (command_queue s ++ requested inference)%list (inventory s) (robot s)
  /\ (forall v, is_understood inference = true ->
                dict_get "beverage" (slots inference) = Some v ->
                requested inference = [lower v])
  /\ (is_understood inference = false \/ dict_get "beverage" (slots inference) = None ->
      requested inference = [])
  /\ _listen_loop_body (Heard keyword_index false inference) s = (Ok tt, s, []).
Proof.
  destruct s as [[st run] q inv w], inference as [und int sl]. cbn in Hstate. subst st.
  unfold requested. cbn.
  repeat split.
  - destruct und; [destruct (dict_get "beverage" sl)|]; reflexivity.
  - destruct und; [destruct (dict_get "beverage" sl)|]; reflexivity.
  - destruct und; [destruct (dict_get "beverage" sl)|]; cbn; rewrite ?app_nil_r; reflexivity.
  - intros v -> ->. reflexivity.
  - intros [->| ->]; [reflexivity|]. now destruct und.
Qed.

(** In state [wake] the frame only goes to the wake-word detector: a match
    moves to [command], nothing is queued either way. *)
Lemma wake_frame (s : System) (keyword_index : Z) (fin : bool) (inference : Inference)
  (Hstate : state (listener s) = wake) :
  let done := _listen_loop_body (Heard keyword_index fin inference) s in
  outcome done = Ok tt
  /\ puts_of (events done) = []
  /\ final_state done =
       mkSystem (mkVoiceListener (if (0 <=? keyword_index)%Z then command else wake)
                                 (running (listener s)))
                (command_queue s) (inventory s) (robot s).
Proof.
  destruct s as [[st run] q inv w]. cbn in Hstate. subst st. cbn.
  destruct (0 <=? keyword_index)%Z; now repeat split.
Qed.

Lemma finalized_frame_requests_and_resets_witness :
  state (listener listening) = command
  /\ final_state (_listen_loop_body (Heard (-1) true coke_please) listening)
     = mkSystem (mkVoiceListener wake true) ["coke"] INVENTORY (robot listening).
Proof.
  split; [reflexivity|].
  destruct (@finalized_frame_requests_and_resets listening (-1) coke_please)
    as (_ & _ & Hfinal & _); [reflexivity|].
  exact Hfinal.
Defined.

(** Two identical requests in a row are both queued and both served. *)
Example same_token_twice :
  let frames := [ Listen (Heard (-1) true coke_please);
                  Listen (Heard 0 false coke_please);
                  Listen (Heard (-1) true coke_please) ] in
  puts_of (events (run "Gripper" frames listening)) = ["coke"; "coke"]
  /\ command_queue (final_state (run "Gripper" frames listening)) = ["coke"; "coke"]
  /\ gets_of (events (run "Gripper" (frames ++ [Poll; Poll]) listening)) = ["coke"; "coke"]
  /\ inventory (final_state (run "Gripper" (frames ++ [Poll; Poll]) listening))
     = dict_set "coke" [] INVENTORY.
Proof. vm_compute. repeat split. Qed.

(** *** The listener thread, frame by frame *)

(** An iteration never touches [running]. *)
Lemma keeps_running_listen_loop_body f :
  keeps (fun s => running (listener s)) (_listen_loop_body f).
Proof.
  intros [[st r] q inv w].
  destruct f as [k fin [und int sl]|e]; [|reflexivity].
  unfold _listen_loop_body, bind, get. cbn.
  destruct st; [destruct (0 <=? k)%Z; reflexivity|].
  destruct fin; [|reflexivity].
  destruct und; [destruct (dict_get "beverage" sl)|]; reflexivity.
Qed.

(** A stopped listener stays stopped and does nothing. *)
Lemma run_listens_stopped (tcp : string) (frames : list Frame) (s : System)
  (Hstop : running (listener s) = false) :
  run tcp (map Listen frames) s = (Ok tt, s, []).
Proof.
  induction frames as [|f frames IH]; [reflexivity|].
  cbn [map run step]. unfold bind, get. cbv beta iota.
  rewrite Hstop. unfold ret at 1. cbv beta iota. now rewrite IH.
Qed.

(** [_listen_loop] when the first frame is handled, and when it raises. *)
Lemma listen_loop_frame_ok (f : Frame) (frames : list Frame) (s s1 : System)
  (l1 : list Event)
  (Hrun : running (listener s) = true)
  (Hit : _listen_loop_body f s = (Ok tt, s1, l1)) :
  _listen_loop (f :: frames) s =
    (outcome (_listen_loop frames s1), final_state (_listen_loop frames s1),
     (l1 ++ events (_listen_loop frames s1))%list).
Proof.
  unfold _listen_loop, try_except, outcome, final_state, events.
  cbn [_listen_loop_while].
  rewrite bind_get, Hrun. unfold bind at 1. rewrite Hit.
  destruct (_listen_loop_while frames s1) as [[[[]|e] s2] l2]; [reflexivity|].
  cbn. now rewrite app_assoc.
Qed.

Lemma listen_loop_frame_raises (f : Frame) (frames : list Frame) (s s1 : System)
  (l1 : list Event) (e : string)
  (Hrun : running (listener s) = true)
  (Hit : _listen_loop_body f s = (Raise e, s1, l1)) :
  _listen_loop (f :: frames) s =
    (Ok tt,
     mkSystem (mkVoiceListener (state (listener s1)) false)
              (command_queue s1) (inventory s1) (robot s1),
     (l1 ++ [ELog ERROR ("Error in voice listener: " ++ e)])%list).
Proof.
  unfold _listen_loop, try_except. cbn [_listen_loop_while].
  rewrite bind_get, Hrun. unfold bind at 1. rewrite Hit. reflexivity.
Qed.

(** [_listen_loop] over the frames the recorder delivers is the interleaving
    model's listener steps, one per frame: same result, same final state,
    same events.  (The [try] spans the whole loop; an exception ends the loop
    with [running] cleared, after which the steps do nothing.) *)
Lemma listen_loop_stepwise (tcp : string) (frames : list Frame) :
  forall s, run tcp (map Listen frames) s = _listen_loop frames s.
Proof.
  induction frames as [|f frames IH]; intro s; [reflexivity|].
  destruct (running (listener s)) eqn:Hrun.
  - cbn [map run step]. rewrite bind_assoc, bind_get, Hrun.
    destruct (_listen_loop_body f s) as [[[[]|e] s1] l1] eqn:Hit.
    + rewrite (@listen_loop_frame_ok f frames s s1 l1 Hrun Hit).
      unfold bind. rewrite (@listen_loop_frame_ok f [] s s1 l1 Hrun Hit).
      change (_listen_loop [] s1) with (Ok tt, s1, @nil Event).
      cbn [outcome final_state events fst snd]. rewrite IH, app_nil_r.
      now destruct (_listen_loop frames s1) as [[r s2] l2].
    + rewrite (@listen_loop_frame_raises f frames s s1 l1 e Hrun Hit).
      unfold bind. rewrite (@listen_loop_frame_raises f [] s s1 l1 e Hrun Hit).
      rewrite run_listens_stopped by reflexivity. now rewrite app_nil_r.
  - rewrite run_listens_stopped by exact Hrun.
    unfold _listen_loop, try_except. cbn [_listen_loop_while].
    rewrite bind_get, Hrun. reflexivity.
Qed.

(** *** The control loop's serve turns down what it cannot serve *)

(** An unknown token, or one that is out of stock, is answered [False]; the
    inventory, the queue and the robot are left alone, and the only event is
    the error in the log. *)
Lemma voice_serve_rejects (s : System) (beverage tcp : string)
  (Hrej : dict_get beverage (inventory s) = None \/ dict_get beverage (inventory s) = Some []) :
  outcome (serve_beverage beverage tcp s) = Ok false
  /\ final_state (serve_beverage beverage tcp s) = s
  /\ calls_of (events (serve_beverage beverage tcp s)) = [].
Proof.
  unfold serve_beverage, bind, get. cbn.
  destruct Hrej as [H|H]; rewrite H; now repeat split.
Qed.

Lemma voice_serve_rejects_witness :
  dict_get "sprite" (inventory listening) = None
  /\ final_state (serve_beverage "sprite" "Gripper" listening) = listening.
Proof.
  split; [reflexivity|].
  destruct (@voice_serve_rejects listening "sprite" "Gripper") as (_ & Hsame & _).
  - left. reflexivity.
  - exact Hsame.
Defined.

(** *** The gripper lines *)

(** [close_grippers] and [open_grippers] lower one line before they raise
    the other: from lines that are not both high they never make both high,
    whichever of their writes raises. *)
Lemma close_open_never_assert_both (s : System)
  (Hprior : both_asserted (tool_out (robot s)) = false) :
  Forall (fun io => both_asserted io = false)
         (tool_out_history (tool_out (robot s)) (events (close_grippers s)))
  /\ Forall (fun io => both_asserted io = false)
            (tool_out_history (tool_out (robot s)) (events (open_grippers s))).
Proof.
  destruct s as [l q inv [o names [a b]]]. cbn in Hprior.
  split;
    destruct o as [|[e1|] [|[e2|] o]]; destruct a, b; try discriminate Hprior;
    cbn; repeat constructor.
Qed.

(** [initialize_grippers] raises line 0 first: when line 1 is high and the
    write goes through, both lines are high after it. *)
Lemma initialize_grippers_asserts_both (s : System)
  (Hprior : tool_out (robot s) = (false, true))
  (Hwrite : hd None (oracle (robot s)) = None) :
  hd_error (tool_out_history (tool_out (robot s)) (events (initialize_grippers s)))
  = Some (true, true).
Proof.
  destruct s as [l q inv [o names io]]. cbn in *. subst io.
  destruct o as [|[e1|] [|[e2|] [|[e3|] o]]]; try discriminate Hwrite; reflexivity.
Qed.

(** C7 does not hold of this program.  The control loop serves "coke" and
    the Move to the customer raises after [close_grippers]: the serve
    recovers and returns with the lines at (low, high).  The next serve
    starts with [initialize_grippers], whose first write raises line 0 while
    line 1 is still high: both outputs are asserted. *)
Theorem serve_after_failed_delivery_asserts_both_lines :
  let w := mkWorld (repeat None 7 ++ [Some "no trajectory found"])%list
                   ["Flange"; "Gripper"] (false, false) in
  let s := mkSystem (mkVoiceListener wake true) ["coke"; "fanta"] INVENTORY w in
  let first := voice_bartender_body "Gripper" s in
  let second := voice_bartender_body "Gripper" (final_state first) in
  outcome first = Ok tt
  /\ existsb both_asserted (tool_out_history (false, false) (events first)) = false
  /\ tool_out (robot (final_state first)) = (false, true)
  /\ outcome second = Ok tt
  /\ filter both_asserted (tool_out_history (false, true) (events second)) = [(true, true)]
  /\ map fst (firstn 3 (calls_of (events second)))
     = [CWrite "tool_out[0]" true; CWrite "tool_out[1]" false; CWrite "tool_out[0]" false].
Proof. vm_compute. repeat split. Qed.

End VoiceFacts.
